(** * Mod assignment for the loadout builder

    A shallow embedding of [src/app/loadout-builder/mod-utils.ts]:
    [doEnergiesMatch], [someModHasEnergyRequirement], [stringifyMods] and
    [getModAssignments], with the properties of the mod-assignment solver
    stated and proved over the embedding.

    Conventions.
    - JavaScript numbers that the module handles (hashes, energy costs,
      capacities) are integers; they are modelled as [Z].
    - [x || 0] on a number and [x || DestinyEnergyType.Any] on an energy type
      replace a missing (or zero) operand by zero, resp. by [Any], whose
      numeric value is zero: both are the "default" of an [option].
    - Functions imported from other modules ([./utils], [app/utils/item-utils],
      the static tables) are parameters of the development. *)

From Stdlib Require Import ZArith String Ascii Bool Lia DecimalString DecimalZ.
From stdpp Require Import base list strings gmap.

Open Scope Z_scope.

(** ** Data model *)

(** [DestinyEnergyType] of bungie-api-ts: a numeric enum whose member [Any]
    is the wildcard. *)
Inductive DestinyEnergyType :=
  | Any | Arc | Thermal | Void | Ghost | Subclass | Stasis.

#[global] Instance DestinyEnergyType_eq_dec : EqDecision DestinyEnergyType.
Proof. solve_decision. Defined.

(** The number a member of the enum is at run time. *)
Definition energyTypeValue (t : DestinyEnergyType) : Z :=
  match t with
  | Any => 0 | Arc => 1 | Thermal => 2 | Void => 3
  | Ghost => 4 | Subclass => 5 | Stasis => 6
  end.

(** [mod.plug.energyCost]: [{ energyType, energyCost }]. *)
Record DestinyEnergyCostEntry := {
  cost_energyType : DestinyEnergyType;
  cost_energyCost : Z
}.

(** [mod.plug]. *)
Record PlugDefinition := {
  plugCategoryHash : Z;
  energyCost : option DestinyEnergyCostEntry
}.

(** [PluggableInventoryItemDefinition]: [hash] tells two mods with the same
    plug apart. *)
Record PluggableInventoryItemDefinition := {
  mod_hash : Z;
  plug : PlugDefinition
}.

Abbreviation Mod := PluggableInventoryItemDefinition.

(** [item.energy]. *)
Record DimEnergy := {
  energyType : DestinyEnergyType;
  energyCapacity : Z
}.

(** [DimItem]: the fields the module reads, and the item hash. *)
Record DimItem := {
  item_id : string;
  item_hash : Z;
  item_bucket_hash : Z;
  item_energy : option DimEnergy
}.

(** An entry of [getSpecialtySocketMetadatas(item)]. *)
Record ModSocketMetadata := {
  compatibleModTags : list string
}.

#[global] Instance DestinyEnergyCostEntry_eq_dec : EqDecision DestinyEnergyCostEntry.
Proof. solve_decision. Defined.
#[global] Instance PlugDefinition_eq_dec : EqDecision PlugDefinition.
Proof. solve_decision. Defined.
#[global] Instance Mod_eq_dec : EqDecision Mod.
Proof. solve_decision. Defined.

(** [mod.plug.energyCost?.energyCost || 0] and
    [mod.plug.energyCost?.energyType || DestinyEnergyType.Any]. *)
Definition energyCostOf (m : Mod) : Z :=
  match energyCost (plug m) with
  | Some c => cost_energyCost c
  | None => 0
  end.

Definition energyTypeOf (m : Mod) : DestinyEnergyType :=
  match energyCost (plug m) with
  | Some c => cost_energyType c
  | None => Any
  end.

(** The same two expressions behind [permutation[i]?.]: a [null] entry, or an
    index past the end of the array, gives the default. *)
Definition energyCostAt (modOrNull : option Mod) : Z :=
  match modOrNull with
  | Some m => energyCostOf m
  | None => 0
  end.

Definition energyTypeAt (modOrNull : option Mod) : DestinyEnergyType :=
  match modOrNull with
  | Some m => energyTypeOf m
  | None => Any
  end.

(** [permutation[i]]: [undefined] past the end, which the loops treat as
    [null]. *)
Definition modAt (permutation : list (option Mod)) (i : nat) : option Mod :=
  match permutation !! i with
  | Some modOrNull => modOrNull
  | None => None
  end.

(** The test [a === b || a === DestinyEnergyType.Any || b === DestinyEnergyType.Any],
    which [getModAssignments] writes out at each of its type checks. *)
Definition energyTypesCompatible (a b : DestinyEnergyType) : bool :=
  bool_decide (a = b) || bool_decide (a = Any) || bool_decide (b = Any).

(** ** [doEnergiesMatch] *)

(** The value of [item.energy && (...)]: the falsy [item.energy] itself, or the
    boolean on the right. *)
Inductive EnergyMatch :=
  | NoEnergy
  | Matched (b : bool).

Definition truthy (r : EnergyMatch) : bool :=
  match r with
  | NoEnergy => false
  | Matched b => b
  end.

(** The functions and tables that the module imports: [./utils]
    ([canSwapEnergyFromUpgradeSpendTier], [upgradeSpendTierToMaxEnergy],
    [generatePermutationsOfFive]), [app/utils/item-utils] (both functions may
    answer [undefined]), [armor2PlugCategoryHashesByName.general],
    [combatCompatiblePlugCategoryHashes], [raidModPlugCategoryHashes] and
    [bucketsToCategories]. *)
Class Imports (D2ManifestDefinitions UpgradeSpendTier : Type) := {
  canSwapEnergyFromUpgradeSpendTier :
    D2ManifestDefinitions -> UpgradeSpendTier -> DimItem -> bool;
  upgradeSpendTierToMaxEnergy :
    D2ManifestDefinitions -> UpgradeSpendTier -> DimItem -> Z;
  generatePermutationsOfFive :
    list Mod -> (list (option Mod) -> string) -> list (list (option Mod));
  getModTypeTagByPlugCategoryHash : Z -> option string;
  getSpecialtySocketMetadatas : DimItem -> option (list ModSocketMetadata);
  armor2PlugCategoryHashesByName_general : Z;
  combatCompatiblePlugCategoryHashes : list Z;
  raidModPlugCategoryHashes : list Z;
  bucketsToCategories : gmap Z Z
}.

Section EnergyChecks.

Context {D2ManifestDefinitions UpgradeSpendTier : Type}.
Context {ext : Imports D2ManifestDefinitions UpgradeSpendTier}.

Definition doEnergiesMatch (defs : D2ManifestDefinitions) (m : Mod)
    (item : DimItem) (upgradeSpendTier : UpgradeSpendTier) : EnergyMatch :=
  match item_energy item with
  | None => NoEnergy
  | Some energy =>
      Matched
        (match energyCost (plug m) with
         | None => true
         | Some c =>
             bool_decide (cost_energyType c = Any)
             || bool_decide (cost_energyType c = energyType energy)
             || canSwapEnergyFromUpgradeSpendTier defs upgradeSpendTier item
         end)
  end.

End EnergyChecks.

(** ** [someModHasEnergyRequirement] *)

Definition someModHasEnergyRequirement (mods : list Mod) : bool :=
  existsb
    (fun m =>
       match energyCost (plug m) with
       | None => true
       | Some c => negb (bool_decide (cost_energyType c = Any))
       end)
    mods.

(** What the documentation of [someModHasEnergyRequirement] asks for: some mod
    has an energy cost whose type is not [Any]. *)
Definition hasElementalRequirement (m : Mod) : Prop :=
  exists c, energyCost (plug m) = Some c /\ cost_energyType c <> Any.

(** ** [stringifyMods] *)

(** A number in a template literal: for an integer below 10^21 in absolute
    value, its decimal digits, with a sign when negative. *)
Definition numberToString (x : Z) : string :=
  NilEmpty.string_of_int (Z.to_int x).

(** [${energy?.field}]: the text [undefined] when there is no energy cost. *)
Definition interpolate (o : option Z) : string :=
  match o with
  | Some x => numberToString x
  | None => "undefined"
  end.

Definition stringifyMod (m : Mod) : string :=
  let energy := energyCost (plug m) in
  "(" +:+ interpolate ((fun c => energyTypeValue (cost_energyType c)) <$> energy)
  +:+ "," +:+ interpolate (cost_energyCost <$> energy)
  +:+ "," +:+ numberToString (plugCategoryHash (plug m)) +:+ ")".

(** The loop of [stringifyMods], from a given [permutationString]. *)
Fixpoint stringifyModsFrom (permutationString : string)
    (permutation : list (option Mod)) : string :=
  match permutation with
  | [] => permutationString
  | modOrNull :: rest =>
      let permutationString :=
        match modOrNull with
        | Some m => permutationString +:+ stringifyMod m
        | None => permutationString
        end in
      stringifyModsFrom (permutationString +:+ ",") rest
  end.

Definition stringifyMods (permutation : list (option Mod)) : string :=
  stringifyModsFrom "" permutation.

(** The triple of a mod that the key prints. *)
Definition modKey (m : Mod) : option DestinyEnergyType * option Z * Z :=
  (cost_energyType <$> energyCost (plug m),
   cost_energyCost <$> energyCost (plug m),
   plugCategoryHash (plug m)).

(** Two entries of an arrangement that the key cannot tell apart. *)
Definition sameEntry (a b : option Mod) : Prop :=
  match a, b with
  | None, None => True
  | Some m, Some n => modKey m = modKey n
  | _, _ => False
  end.

(** The arrangement with the entries at [i] and [j] exchanged. *)
Definition swapEntries (i j : nat) (p : list (option Mod)) : list (option Mod) :=
  match p !! i, p !! j with
  | Some a, Some b => <[j := a]> (<[i := b]> p)
  | _, _ => p
  end.

(** The key read from the left: what each entry contributes, and the comma
    after it. *)
Definition entryString (modOrNull : option Mod) : string :=
  match modOrNull with
  | Some m => stringifyMod m
  | None => ""
  end.

Fixpoint keyOfEntries (permutation : list (option Mod)) : string :=
  match permutation with
  | [] => ""
  | modOrNull :: rest => entryString modOrNull +:+ "," +:+ keyOfEntries rest
  end.

(** Whether a character occurs in a string. *)
Fixpoint occurs (c : ascii) (s : string) : bool :=
  match s with
  | EmptyString => false
  | String a rest => Ascii.eqb c a || occurs c rest
  end.

(** ** [getModAssignments] *)

(** *** The [Map] of assignments

    A JavaScript [Map] keeps its entries in insertion order; [set] on a key
    that is present replaces the value in place. *)
Fixpoint mapSet {V : Type} (k : string) (v : V) (m : list (string * V))
    : list (string * V) :=
  match m with
  | [] => [(k, v)]
  | (k', v') :: rest =>
      if bool_decide (k' = k) then (k', v) :: rest
      else (k', v') :: mapSet k v rest
  end.

Fixpoint mapGet {V : Type} (k : string) (m : list (string * V)) : option V :=
  match m with
  | [] => None
  | (k', v') :: rest =>
      if bool_decide (k' = k) then Some v' else mapGet k rest
  end.

(** [m.get(k)?.push(x)]: the array held under [k] grows by [x]; nothing
    happens when [k] is absent. *)
Fixpoint mapPush {V : Type} (k : string) (x : V) (m : list (string * list V))
    : list (string * list V) :=
  match m with
  | [] => []
  | (k', l) :: rest =>
      if bool_decide (k' = k) then (k', l ++ [x]) :: rest
      else (k', l) :: mapPush k x rest
  end.

(** *** lodash *)

(** [_.keyBy(items, (item) => item.id)]: a later item replaces an earlier one
    with the same id. *)
Definition keyBy (items : list DimItem) : gmap string DimItem :=
  foldl (fun acc item => <[item_id item := item]> acc) ∅ items.

(** [_.mapValues(object, f)]. *)
Definition mapValues {A B : Type} (f : A -> B) (object : gmap string A)
    : gmap string B :=
  f <$> object.

(** [_.sumBy(array, f)], zero for [undefined]. *)
Definition sumBy {A : Type} (array : option (list A)) (f : A -> Z) : Z :=
  match array with
  | Some l => foldl (fun acc x => acc + f x) 0 l
  | None => 0
  end.

(** *** State of a run *)

(** The assignments and the three buckets that the loop over [mods] fills. *)
Record Buckets := {
  assignments : list (string * list Mod);
  generalMods : list Mod;
  combatMods : list Mod;
  raidMods : list Mod
}.

(** A value of [itemEnergies]. *)
Record ItemEnergy := {
  used : Z;
  capacity : Z;
  type : DestinyEnergyType
}.

(** What a run of the search loops goes through: a permutation taken up by one
    of the three loops, and the point marked
    [// calculate best mod assignment here]. *)
Inductive SearchEvent :=
  | TryCombat (combatP : list (option Mod))
  | TryGeneral (combatP generalP : list (option Mod))
  | TryRaid (combatP generalP raidP : list (option Mod))
  | Candidate (combatP generalP raidP : list (option Mod)).

(** The objects a run holds while it searches, and the events so far. *)
Record SolverState := {
  buckets : Buckets;
  itemSocketMetadata : gmap string (option (list ModSocketMetadata));
  itemEnergies : gmap string ItemEnergy;
  trace : list SearchEvent
}.

Definition record (e : SearchEvent) (st : SolverState) : SolverState :=
  {| buckets := buckets st;
     itemSocketMetadata := itemSocketMetadata st;
     itemEnergies := itemEnergies st;
     trace := trace st ++ [e] |}.

(** How a call ends: the module has no [throw]. *)
Inductive Completion (A : Type) :=
  | Normal (value : A)
  | Throw (message : string).
Arguments Normal {A} value.
Arguments Throw {A} message.

(** The triples that reached the candidate point. *)
Definition candidates (events : list SearchEvent)
    : list (list (option Mod) * list (option Mod) * list (option Mod)) :=
  omap (fun e => match e with
                 | Candidate c g r => Some (c, g, r)
                 | _ => None
                 end) events.

(** A loop [for (let i = 0; i < items.length; i++)] over the entries of a
    permutation: [true] when it runs to its end, [false] when an entry does
    not fit and the loop leaves with [continue] to the enclosing loop. The
    entries after the first that does not fit are not looked at. *)
Fixpoint itemLoop (fits : nat -> DimItem -> Mod -> bool)
    (permutation : list (option Mod)) (i : nat) (items : list DimItem) : bool :=
  match items with
  | [] => true
  | item :: rest =>
      match modAt permutation i with
      | None => itemLoop fits permutation (S i) rest
      | Some m =>
          if fits i item m then itemLoop fits permutation (S i) rest
          else false
      end
  end.

(** The variant that evaluates the check at every index, and then decides. *)
Definition checkAll (fits : nat -> DimItem -> Mod -> bool)
    (permutation : list (option Mod)) (items : list DimItem) : bool :=
  forallb (fun b : bool => b)
    (imap (fun i item =>
             match modAt permutation i with
             | None => true
             | Some m => fits i item m
             end) items).

Section Solver.

Context {D2ManifestDefinitions UpgradeSpendTier : Type}.
Context {ext : Imports D2ManifestDefinitions UpgradeSpendTier}.

(** *** Lines 62-90: the assignments and the buckets *)

(** [for (const item of items) assignments.set(item.id, [])]. *)
Definition emptyAssignments (items : list DimItem) : list (string * list Mod) :=
  foldl (fun acc item => mapSet (item_id item) [] acc) [] items.

(** [items.find((item) => mod.plug.plugCategoryHash ===
    bucketsToCategories[item.bucket.hash])]. *)
Definition itemForMod (items : list DimItem) (m : Mod) : option DimItem :=
  find
    (fun item =>
       bool_decide
         (bucketsToCategories !! item_bucket_hash item
          = Some (plugCategoryHash (plug m))))
    items.

(** The body of [for (const mod of mods)]. *)
Definition partitionStep (items : list DimItem) (b : Buckets) (m : Mod) : Buckets :=
  if bool_decide (plugCategoryHash (plug m) = armor2PlugCategoryHashesByName_general)
  then {| assignments := assignments b;
          generalMods := generalMods b ++ [m];
          combatMods := combatMods b;
          raidMods := raidMods b |}
  else if bool_decide (plugCategoryHash (plug m) ∈ combatCompatiblePlugCategoryHashes)
  then {| assignments := assignments b;
          generalMods := generalMods b;
          combatMods := combatMods b ++ [m];
          raidMods := raidMods b |}
  else if bool_decide (plugCategoryHash (plug m) ∈ raidModPlugCategoryHashes)
  then {| assignments := assignments b;
          generalMods := generalMods b;
          combatMods := combatMods b;
          raidMods := raidMods b ++ [m] |}
  else
    match itemForMod items m with
    | Some item =>
        {| assignments := mapPush (item_id item) m (assignments b);
           generalMods := generalMods b;
           combatMods := combatMods b;
           raidMods := raidMods b |}
    | None => b
    end.

Definition partitionMods (items : list DimItem) (mods : list Mod) : Buckets :=
  foldl (partitionStep items)
    {| assignments := emptyAssignments items;
       generalMods := [];
       combatMods := [];
       raidMods := [] |}
    mods.

(** *** Lines 68-71 and 92-102: the two objects keyed by item id *)

Definition buildItemSocketMetadata (items : list DimItem)
    : gmap string (option (list ModSocketMetadata)) :=
  mapValues getSpecialtySocketMetadatas (keyBy items).

Definition buildItemEnergies (defs : D2ManifestDefinitions)
    (upgradeSpendTier : UpgradeSpendTier) (items : list DimItem)
    (assigned : list (string * list Mod)) : gmap string ItemEnergy :=
  mapValues
    (fun item =>
       {| used := sumBy (mapGet (item_id item) assigned) energyCostOf;
          capacity := upgradeSpendTierToMaxEnergy defs upgradeSpendTier item;
          type :=
            match item_energy item with
            | None => Any
            | Some energy =>
                if canSwapEnergyFromUpgradeSpendTier defs upgradeSpendTier item
                then Any
                else energyType energy
            end |})
    (keyBy items).

(** *** Lines 108-227: the checks of the three loops *)

(** [itemEnergy.type === t || t === DestinyEnergyType.Any ||
    itemEnergy.type === DestinyEnergyType.Any]. *)
Definition itemTakesType (itemEnergy : ItemEnergy) (t : DestinyEnergyType) : bool :=
  bool_decide (type itemEnergy = t) || bool_decide (t = Any)
  || bool_decide (type itemEnergy = Any).

(** [modTag && itemSocketMetadata[item.id]?.some((metadata) =>
    metadata.compatibleModTags.includes(modTag))]: an empty tag is falsy. *)
Definition socketsTakeTag (st : SolverState) (item : DimItem)
    (modTag : option string) : bool :=
  match modTag with
  | None => false
  | Some tag =>
      negb (bool_decide (tag = ""%string))
      && match itemSocketMetadata st !! item_id item with
         | Some (Some metadatas) =>
             existsb
               (fun metadata => bool_decide (tag ∈ compatibleModTags metadata))
               metadatas
         | _ => false
         end
  end.

(** Lines 117-141: [true] when the loop goes on to the next index. *)
Definition combatFits (st : SolverState) (item : DimItem) (combatMod : Mod) : bool :=
  let itemEnergy := itemEnergies st !! item_id item in
  let modTag := getModTypeTagByPlugCategoryHash (plugCategoryHash (plug combatMod)) in
  let combatEnergyCost := energyCostOf combatMod in
  let combatEnergyType := energyTypeOf combatMod in
  let combatEnergyIsValid :=
    match itemEnergy with
    | None => false
    | Some itemEnergy =>
        (used itemEnergy + combatEnergyCost <=? capacity itemEnergy)
        && itemTakesType itemEnergy combatEnergyType
    end in
  combatEnergyIsValid && socketsTakeTag st item modTag.

(** Lines 153-173. *)
Definition generalFits (st : SolverState) (combatP : list (option Mod))
    (i : nat) (item : DimItem) (generalMod : Mod) : bool :=
  let itemEnergy := itemEnergies st !! item_id item in
  let generalEnergyCost := energyCostOf generalMod in
  let generalEnergyType := energyTypeOf generalMod in
  let combatEnergyCost := energyCostAt (modAt combatP i) in
  let combatEnergyType := energyTypeAt (modAt combatP i) in
  match itemEnergy with
  | None => false
  | Some itemEnergy =>
      (used itemEnergy + generalEnergyCost + combatEnergyCost <=? capacity itemEnergy)
      && itemTakesType itemEnergy generalEnergyType
      && energyTypesCompatible generalEnergyType combatEnergyType
  end.

(** Lines 185-221. *)
Definition raidFits (st : SolverState) (combatP generalP : list (option Mod))
    (i : nat) (item : DimItem) (raidMod : Mod) : bool :=
  let itemEnergy := itemEnergies st !! item_id item in
  let modTag := getModTypeTagByPlugCategoryHash (plugCategoryHash (plug raidMod)) in
  let raidEnergyCost := energyCostOf raidMod in
  let raidEnergyType := energyTypeOf raidMod in
  let generalEnergyCost := energyCostAt (modAt generalP i) in
  let generalEnergyType := energyTypeAt (modAt generalP i) in
  let combatEnergyCost := energyCostAt (modAt combatP i) in
  let combatEnergyType := energyTypeAt (modAt combatP i) in
  let raidEnergyIsValid :=
    match itemEnergy with
    | None => false
    | Some itemEnergy =>
        (used itemEnergy + generalEnergyCost + combatEnergyCost + raidEnergyCost
         <=? capacity itemEnergy)
        && itemTakesType itemEnergy raidEnergyType
        && energyTypesCompatible raidEnergyType generalEnergyType
        && energyTypesCompatible raidEnergyType combatEnergyType
    end in
  raidEnergyIsValid && socketsTakeTag st item modTag.

(** *** The three nested loops *)

(** The body of [raidModLoop] for one [raidP]. *)
Definition raidStep (items : list DimItem) (combatP generalP : list (option Mod))
    (st : SolverState) (raidP : list (option Mod)) : SolverState :=
  let st := record (TryRaid combatP generalP raidP) st in
  if itemLoop (raidFits st combatP generalP) raidP 0 items
  then record (Candidate combatP generalP raidP) st
  else st.

Definition raidModLoop (items : list DimItem) (combatP generalP : list (option Mod))
    (raidModPermutations : list (list (option Mod))) (st : SolverState) : SolverState :=
  foldl (raidStep items combatP generalP) st raidModPermutations.

(** The body of [generalModLoop] for one [generalP]. *)
Definition generalStep (items : list DimItem)
    (raidModPermutations : list (list (option Mod))) (combatP : list (option Mod))
    (st : SolverState) (generalP : list (option Mod)) : SolverState :=
  let st := record (TryGeneral combatP generalP) st in
  if itemLoop (generalFits st combatP) generalP 0 items
  then raidModLoop items combatP generalP raidModPermutations st
  else st.

Definition generalModLoop (items : list DimItem)
    (generalModPermutations raidModPermutations : list (list (option Mod)))
    (combatP : list (option Mod)) (st : SolverState) : SolverState :=
  foldl (generalStep items raidModPermutations combatP) st generalModPermutations.

(** The body of [combatModLoop] for one [combatP]. *)
Definition combatStep (items : list DimItem)
    (generalModPermutations raidModPermutations : list (list (option Mod)))
    (st : SolverState) (combatP : list (option Mod)) : SolverState :=
  let st := record (TryCombat combatP) st in
  if itemLoop (fun _ => combatFits st) combatP 0 items
  then generalModLoop items generalModPermutations raidModPermutations combatP st
  else st.

Definition combatModLoop (items : list DimItem)
    (combatModPermutations generalModPermutations raidModPermutations
       : list (list (option Mod)))
    (st : SolverState) : SolverState :=
  foldl (combatStep items generalModPermutations raidModPermutations) st
    combatModPermutations.

(** *** The function *)

(** The state when the search starts (line 107). *)
Definition seededState (items : list DimItem) (mods : list Mod)
    (defs : D2ManifestDefinitions) (upgradeSpendTier : UpgradeSpendTier)
    : SolverState :=
  let b := partitionMods items mods in
  {| buckets := b;
     itemSocketMetadata := buildItemSocketMetadata items;
     itemEnergies := buildItemEnergies defs upgradeSpendTier items (assignments b);
     trace := [] |}.

(** The state when the search ends (line 228). *)
Definition searchedState (items : list DimItem) (mods : list Mod)
    (defs : D2ManifestDefinitions) (upgradeSpendTier : UpgradeSpendTier)
    : SolverState :=
  let st := seededState items mods defs upgradeSpendTier in
  let generalModPermutations :=
    generatePermutationsOfFive (generalMods (buckets st)) stringifyMods in
  let combatModPermutations :=
    generatePermutationsOfFive (combatMods (buckets st)) stringifyMods in
  let raidModPermutations :=
    generatePermutationsOfFive (raidMods (buckets st)) stringifyMods in
  combatModLoop items combatModPermutations generalModPermutations
    raidModPermutations st.

Definition getModAssignments (items : list DimItem) (mods : list Mod)
    (defs : D2ManifestDefinitions) (upgradeSpendTier : UpgradeSpendTier)
    : Completion (list (string * list Mod)) :=
  Normal (assignments (buckets (searchedState items mods defs upgradeSpendTier))).

(** The candidates of a run. *)
Definition acceptedTriples (items : list DimItem) (mods : list Mod)
    (defs : D2ManifestDefinitions) (upgradeSpendTier : UpgradeSpendTier) :=
  candidates (trace (searchedState items mods defs upgradeSpendTier)).

(** *** The search that checks every index before it decides

    The variant of the three loops in which a permutation is accepted or
    abandoned only after the check has been evaluated at all of its
    indices. *)
Definition naiveTriples (st : SolverState) (items : list DimItem)
    (combatModPermutations generalModPermutations raidModPermutations
       : list (list (option Mod)))
    : list (list (option Mod) * list (option Mod) * list (option Mod)) :=
  combatP ← combatModPermutations;
  if checkAll (fun _ => combatFits st) combatP items then
    generalP ← generalModPermutations;
    if checkAll (generalFits st combatP) generalP items then
      raidP ← raidModPermutations;
      if checkAll (raidFits st combatP generalP) raidP items
      then [(combatP, generalP, raidP)]
      else []
    else []
  else [].

(** *** The constraints of a joint assignment, checked on their own *)

(** The mod's type is [Any], or equals the slot's type, or the slot's type
    is [Any]; an empty entry asks for nothing. *)
Definition typeFitsSlot (e : ItemEnergy) (modOrNull : option Mod) : Prop :=
  match modOrNull with
  | None => True
  | Some m => energyTypeOf m = Any \/ energyTypeOf m = type e \/ type e = Any
  end.

(** [Compatible(typeA, typeB)]. *)
Definition Compatible (a b : DestinyEnergyType) : Prop :=
  a = b \/ a = Any \/ b = Any.

Definition mutuallyCompatible (x y : option Mod) : Prop :=
  match x, y with
  | Some m, Some n => Compatible (energyTypeOf m) (energyTypeOf n)
  | _, _ => True
  end.

(** The mod's tag is one of those that the sockets of the item take. *)
Definition tagTaken (st : SolverState) (item : DimItem)
    (modOrNull : option Mod) : Prop :=
  match modOrNull with
  | None => True
  | Some m =>
      exists tag metadatas metadata,
        getModTypeTagByPlugCategoryHash (plugCategoryHash (plug m)) = Some tag
        /\ itemSocketMetadata st !! item_id item = Some (Some metadatas)
        /\ metadata ∈ metadatas
        /\ tag ∈ compatibleModTags metadata
  end.

(** The cumulative bound of the slot of [item]. *)
Definition withinCapacity (st : SolverState) (item : DimItem)
    (c g r : option Mod) : Prop :=
  exists e,
    itemEnergies st !! item_id item = Some e
    /\ used e + energyCostAt c + energyCostAt g + energyCostAt r <= capacity e.

(** The constraints on types and tags of the slot of [item]. *)
Definition typesAndTagsFit (st : SolverState) (item : DimItem)
    (c g r : option Mod) : Prop :=
  exists e,
    itemEnergies st !! item_id item = Some e
    /\ typeFitsSlot e c /\ typeFitsSlot e g /\ typeFitsSlot e r
    /\ mutuallyCompatible g c /\ mutuallyCompatible r g /\ mutuallyCompatible r c
    /\ tagTaken st item c /\ tagTaken st item r.

(** Soundness with the bound asked at every index. *)
Definition soundAtEveryIndex (items : list DimItem) (mods : list Mod)
    (defs : D2ManifestDefinitions) (upgradeSpendTier : UpgradeSpendTier) : Prop :=
  forall c g r (i : nat) item,
    (c, g, r) ∈ acceptedTriples items mods defs upgradeSpendTier ->
    items !! i = Some item ->
    let st := seededState items mods defs upgradeSpendTier in
    withinCapacity st item (modAt c i) (modAt g i) (modAt r i)
    /\ typesAndTagsFit st item (modAt c i) (modAt g i) (modAt r i).

(** *** Failing checks *)

Definition failsAt (fits : nat -> DimItem -> Mod -> bool)
    (permutation : list (option Mod)) (items : list DimItem) (i : nat) : Prop :=
  exists item m,
    items !! i = Some item /\ modAt permutation i = Some m /\ fits i item m = false.

(** *** Input that the specification calls malformed *)

Definition malformed (items : list DimItem) (mods : list Mod) : Prop :=
  length items <> 5%nat
  \/ exists m c, m ∈ mods /\ energyCost (plug m) = Some c /\ cost_energyCost c < 0.

Definition failsFast {A : Type} (r : Completion A) : Prop :=
  exists message, r = Throw message.

(** *** The mods of an item *)

(** A mod that none of the three buckets takes. *)
Definition slotSpecific (m : Mod) : bool :=
  negb (bool_decide (plugCategoryHash (plug m) = armor2PlugCategoryHashesByName_general))
  && negb (bool_decide (plugCategoryHash (plug m) ∈ combatCompatiblePlugCategoryHashes))
  && negb (bool_decide (plugCategoryHash (plug m) ∈ raidModPlugCategoryHashes)).

(** A slot-specific mod whose first matching item has the id [k]. *)
Definition committedTo (items : list DimItem) (k : string) (m : Mod) : bool :=
  slotSpecific m
  && match itemForMod items m with
     | Some item => bool_decide (item_id item = k)
     | None => false
     end.

(** The last item of [items] with the id [k]: the one [_.keyBy] keeps. *)
Definition lastWithId (k : string) (items : list DimItem) : option DimItem :=
  last (filter (fun item => item_id item = k) items).

(** *** The states as the specification describes them *)

(** The type of a seeded state is [Any] exactly when the item has no energy
    or the tier lets the item change its type. *)
Definition wildcardExactlyWhenFree (items : list DimItem) (mods : list Mod)
    (defs : D2ManifestDefinitions) (upgradeSpendTier : UpgradeSpendTier) : Prop :=
  forall item e,
    item ∈ items ->
    itemEnergies (seededState items mods defs upgradeSpendTier) !! item_id item
    = Some e ->
    type e = Any
    <-> (item_energy item = None
         \/ canSwapEnergyFromUpgradeSpendTier defs upgradeSpendTier item = true).

(** *** The events of the loops, as a function of the objects they read *)

(** Two states with the same assignments, buckets and objects. *)
Definition sameStore (st st' : SolverState) : Prop :=
  buckets st = buckets st'
  /\ itemSocketMetadata st = itemSocketMetadata st'
  /\ itemEnergies st = itemEnergies st'.

(** A state with its events forgotten. *)
Definition withoutTrace (st : SolverState) : SolverState :=
  {| buckets := buckets st;
     itemSocketMetadata := itemSocketMetadata st;
     itemEnergies := itemEnergies st;
     trace := [] |}.

Definition raidEvents (st : SolverState) (items : list DimItem)
    (combatP generalP : list (option Mod))
    (raidModPermutations : list (list (option Mod))) : list SearchEvent :=
  raidP ← raidModPermutations;
  TryRaid combatP generalP raidP
  :: (if itemLoop (raidFits st combatP generalP) raidP 0 items
      then [Candidate combatP generalP raidP]
      else []).

Definition generalEvents (st : SolverState) (items : list DimItem)
    (raidModPermutations : list (list (option Mod))) (combatP : list (option Mod))
    (generalModPermutations : list (list (option Mod))) : list SearchEvent :=
  generalP ← generalModPermutations;
  TryGeneral combatP generalP
  :: (if itemLoop (generalFits st combatP) generalP 0 items
      then raidEvents st items combatP generalP raidModPermutations
      else []).

Definition combatEvents (st : SolverState) (items : list DimItem)
    (generalModPermutations raidModPermutations : list (list (option Mod)))
    (combatModPermutations : list (list (option Mod))) : list SearchEvent :=
  combatP ← combatModPermutations;
  TryCombat combatP
  :: (if itemLoop (fun _ => combatFits st) combatP 0 items
      then generalEvents st items raidModPermutations combatP
             generalModPermutations
      else []).

End Solver.

(** ** A generator, tables and inputs for the examples *)

(** Modelled from the spec: [generatePermutationsOfFive] of [./utils], which
    is not among the sources. It gives every way to place some of the mods
    into five positions, the other positions holding [null], no mod twice in
    an arrangement; of the arrangements with the same key it keeps one. It
    stands for the imported generator in the examples only. *)
Definition placeMod (m : Mod) (arrangement : list (option Mod))
    : list (list (option Mod)) :=
  arrangement
  :: omap (fun i =>
             match arrangement !! i with
             | Some None => Some (<[i := Some m]> arrangement)
             | _ => None
             end) (seq 0 5).

Fixpoint distinctByKey (key : list (option Mod) -> string) (seen : list string)
    (arrangements : list (list (option Mod))) : list (list (option Mod)) :=
  match arrangements with
  | [] => []
  | a :: rest =>
      if bool_decide (key a ∈ seen) then distinctByKey key seen rest
      else a :: distinctByKey key (key a :: seen) rest
  end.

Definition permutationsOfFive (mods : list Mod)
    (key : list (option Mod) -> string) : list (list (option Mod)) :=
  distinctByKey key []
    (foldl (fun acc m => acc ≫= placeMod m) [replicate 5 None] mods).

Module Example.

(** Tables: one general category, one combat category with the tag
    [combat], one raid category with the tag [raid]; helmets take the
    category 40 and gauntlets the category 41. Capacity is the capacity of
    the item's energy; no tier lets an item change its type. Only the item
    with the hash 1 has specialty sockets. *)
Definition imports : Imports unit unit := {|
  canSwapEnergyFromUpgradeSpendTier := fun _ _ _ => false;
  upgradeSpendTierToMaxEnergy := fun _ _ item =>
    match item_energy item with
    | Some energy => energyCapacity energy
    | None => 0
    end;
  generatePermutationsOfFive := permutationsOfFive;
  getModTypeTagByPlugCategoryHash := fun h =>
    if bool_decide (h = 20) then Some "combat"%string
    else if bool_decide (h = 30) then Some "raid"%string
    else None;
  getSpecialtySocketMetadatas := fun item =>
    if bool_decide (item_hash item = 1)
    then Some [ {| compatibleModTags := ["combat"%string; "raid"%string] |} ]
    else None;
  armor2PlugCategoryHashesByName_general := 10;
  combatCompatiblePlugCategoryHashes := [20];
  raidModPlugCategoryHashes := [30];
  bucketsToCategories := {[ 100 := 40; 101 := 41 ]}
|}.

Definition armor (id : string) (h bucket : Z) (t : DestinyEnergyType)
    (cap : Z) : DimItem :=
  {| item_id := id; item_hash := h; item_bucket_hash := bucket;
     item_energy := Some {| energyType := t; energyCapacity := cap |} |}.

Definition helmet : DimItem := armor "helmet" 1 100 Arc 10.
Definition gauntlets : DimItem := armor "gauntlets" 2 101 Thermal 10.
Definition chest : DimItem := armor "chest" 3 102 Void 10.
Definition legs : DimItem := armor "legs" 4 103 Arc 10.
Definition classItem : DimItem := armor "classItem" 5 104 Arc 10.

Definition items : list DimItem := [helmet; gauntlets; chest; legs; classItem].

(** A helmet of capacity 3, and the same five slots with it. *)
Definition smallHelmet : DimItem := armor "helmet" 1 100 Arc 3.
Definition smallItems : list DimItem :=
  [smallHelmet; gauntlets; chest; legs; classItem].

(** A helmet whose own energy type is [Any]. *)
Definition plainHelmet : DimItem := armor "helmet" 1 100 Any 10.
Definition plainItems : list DimItem :=
  [plainHelmet; gauntlets; chest; legs; classItem].

Definition costing (h category : Z) (t : DestinyEnergyType) (amount : Z) : Mod :=
  {| mod_hash := h;
     plug := {| plugCategoryHash := category;
                energyCost := Some {| cost_energyType := t;
                                      cost_energyCost := amount |} |} |}.

Definition free (h category : Z) : Mod :=
  {| mod_hash := h;
     plug := {| plugCategoryHash := category; energyCost := None |} |}.

Definition combatMod : Mod := costing 1001 20 Arc 3.
Definition generalMod : Mod := costing 1002 10 Any 9.
Definition helmetMod : Mod := costing 1003 40 Arc 5.
Definition strayMod : Mod := costing 1004 99 Arc 1.
Definition refundMod : Mod := costing 1005 40 Arc (-2).

(** Two mods that differ in their hash only. *)
Definition emberA : Mod := costing 2001 20 Thermal 5.
Definition emberB : Mod := costing 2002 20 Thermal 5.

Definition none5 : list (option Mod) := replicate 5 None.

End Example.

(** ** The checks of the loops, as conditions on a slot *)

Section SlotConditions.

Context {D2ManifestDefinitions UpgradeSpendTier : Type}.
Context {ext : Imports D2ManifestDefinitions UpgradeSpendTier}.

(** The mod has a tag, the tag is not the empty string, and some socket
    metadata of the item lists the tag. *)
Definition tagAccepted (st : SolverState) (item : DimItem) (m : Mod) : Prop :=
  exists tag metadatas metadata,
    getModTypeTagByPlugCategoryHash (plugCategoryHash (plug m)) = Some tag
    /\ tag <> ""%string
    /\ itemSocketMetadata st !! item_id item = Some (Some metadatas)
    /\ metadata ∈ metadatas
    /\ tag ∈ compatibleModTags metadata.

(** What the combat loop asks of the entry of [combatP] at the slot. *)
Definition combatAllowedAt (st : SolverState) (item : DimItem)
    (c : option Mod) : Prop :=
  match c with
  | None => True
  | Some m =>
      exists e,
        itemEnergies st !! item_id item = Some e
        /\ used e + energyCostOf m <= capacity e
        /\ typeFitsSlot e (Some m)
        /\ tagAccepted st item m
  end.

(** What the general loop asks of the entry of [generalP], given that of
    [combatP]. *)
Definition generalAllowedAt (st : SolverState) (item : DimItem)
    (c g : option Mod) : Prop :=
  match g with
  | None => True
  | Some m =>
      exists e,
        itemEnergies st !! item_id item = Some e
        /\ used e + energyCostOf m + energyCostAt c <= capacity e
        /\ typeFitsSlot e (Some m)
        /\ Compatible (energyTypeOf m) (energyTypeAt c)
  end.

(** What the raid loop asks of the entry of [raidP], given the other two. *)
Definition raidAllowedAt (st : SolverState) (item : DimItem)
    (c g r : option Mod) : Prop :=
  match r with
  | None => True
  | Some m =>
      exists e,
        itemEnergies st !! item_id item = Some e
        /\ used e + energyCostAt g + energyCostAt c + energyCostOf m
           <= capacity e
        /\ typeFitsSlot e (Some m)
        /\ Compatible (energyTypeOf m) (energyTypeAt g)
        /\ Compatible (energyTypeOf m) (energyTypeAt c)
        /\ tagAccepted st item m
  end.

(** A slot-specific mod that no item takes. *)
Definition dropped (items : list DimItem) (m : Mod) : bool :=
  slotSpecific m
  && match itemForMod items m with
     | Some _ => false
     | None => true
     end.

End SlotConditions.

(** Two permutations with the same entries below [n]. *)
Definition agreeBelow (n : nat) (p q : list (option Mod)) : Prop :=
  forall i : nat, (i < n)%nat -> modAt p i = modAt q i.




Fixpoint countEvents (kind : SearchEvent -> bool) (events : list SearchEvent)
    : nat :=
  match events with
  | [] => 0
  | e :: rest => (if kind e then 1 else 0) + countEvents kind rest
  end.

(** ** Where a slot-specific mod goes, said without [find] *)

Section FirstItem.

Context {D2ManifestDefinitions UpgradeSpendTier : Type}.
Context {ext : Imports D2ManifestDefinitions UpgradeSpendTier}.

(** The plug category of the mod is not the general one, not a combat
    compatible one and not a raid one. *)
Definition inNoBucket (m : Mod) : Prop :=
  plugCategoryHash (plug m) <> armor2PlugCategoryHashesByName_general
  /\ (plugCategoryHash (plug m) ∉ combatCompatiblePlugCategoryHashes)
  /\ (plugCategoryHash (plug m) ∉ raidModPlugCategoryHashes).

(** [item] is the first of [items] whose bucket maps to the plug category of
    the mod. *)
Definition firstItemFor (items : list DimItem) (m : Mod) (item : DimItem)
    : Prop :=
  exists i : nat,
    items !! i = Some item
    /\ bucketsToCategories !! item_bucket_hash item
       = Some (plugCategoryHash (plug m))
    /\ forall (j : nat) other,
         (j < i)%nat -> items !! j = Some other ->
         bucketsToCategories !! item_bucket_hash other
         <> Some (plugCategoryHash (plug m)).

End FirstItem.

(** * Properties *)

(** ** Energy types *)

Lemma energyTypesCompatible_spec a b :
  energyTypesCompatible a b = true <-> Compatible a b.
Proof.
  unfold energyTypesCompatible, Compatible.
  rewrite !orb_true_iff, !bool_decide_eq_true. tauto.
Qed.

Lemma itemTakesType_spec e t :
  itemTakesType e t = true <-> t = Any \/ t = type e \/ type e = Any.
Proof.
  unfold itemTakesType.
  rewrite !orb_true_iff, !bool_decide_eq_true. intuition congruence.
Qed.

(** C5, as the specification has it, fails: being compatible is not
    transitive, since [Any] stands between any two types. *)
Lemma energyTypesCompatible_not_transitive :
  ~ (forall a b c,
        energyTypesCompatible a b = true ->
        energyTypesCompatible b c = true ->
        energyTypesCompatible a c = true).
Proof.
  intros Htrans.
  specialize (Htrans Arc Any Thermal eq_refl eq_refl).
  discriminate Htrans.
Qed.

(** C5, amended: the test of mutual type compatibility that the search
    writes out is symmetric, and it is transitive through every middle type
    other than [Any]. *)
Theorem energyTypesCompatible_symmetric_and_transitive_through_element :
  (forall a b, energyTypesCompatible a b = energyTypesCompatible b a)
  /\ (forall a b c,
         b <> Any ->
         energyTypesCompatible a b = true ->
         energyTypesCompatible b c = true ->
         energyTypesCompatible a c = true).
Proof.
  split.
  - intros a b. apply eq_true_iff_eq.
    rewrite !energyTypesCompatible_spec. unfold Compatible. intuition congruence.
  - intros a b c Hb.
    rewrite !energyTypesCompatible_spec. unfold Compatible. intuition congruence.
Qed.

Lemma energyTypesCompatible_transitive_witness :
  Arc <> Any
  /\ energyTypesCompatible Any Arc = true
  /\ energyTypesCompatible Arc Arc = true
  /\ energyTypesCompatible Any Arc = true.
Proof.
  assert (Hne : Arc <> Any) by discriminate.
  split; [exact Hne|]. split; [reflexivity|]. split; [reflexivity|].
  exact (proj2 energyTypesCompatible_symmetric_and_transitive_through_element
           Any Arc Arc Hne eq_refl eq_refl).
Defined.

(** ** [doEnergiesMatch] *)

(** C6: [doEnergiesMatch] is falsy for an item without energy; for an item
    with energy it is [true] whenever the mod has no energy cost or the type
    of its cost is [Any], whatever the type of the item and whatever
    [canSwapEnergyFromUpgradeSpendTier] answers. *)
Theorem doEnergiesMatch_without_energy_and_for_any_type
    {D2ManifestDefinitions UpgradeSpendTier : Type}
    {ext : Imports D2ManifestDefinitions UpgradeSpendTier}
    (defs : D2ManifestDefinitions) (m : Mod) (item : DimItem)
    (upgradeSpendTier : UpgradeSpendTier) :
  (item_energy item = None ->
   truthy (doEnergiesMatch defs m item upgradeSpendTier) = false)
  /\ (item_energy item <> None ->
      energyCost (plug m) = None
      \/ (exists c, energyCost (plug m) = Some c /\ cost_energyType c = Any) ->
      doEnergiesMatch defs m item upgradeSpendTier = Matched true).
Proof.
  unfold doEnergiesMatch. split.
  - intros ->. reflexivity.
  - intros Hsome Hmod. destruct (item_energy item) as [energy|]; [|congruence].
    destruct Hmod as [-> | (c & -> & Hany)]; [reflexivity|].
    rewrite Hany. reflexivity.
Qed.

Lemma doEnergiesMatch_witness :
  let bare := {| item_id := "ghost"; item_hash := 9; item_bucket_hash := 105;
                 item_energy := None |} in
  truthy (doEnergiesMatch (ext := Example.imports) tt Example.combatMod bare tt) = false
  /\ doEnergiesMatch (ext := Example.imports) tt (Example.costing 7 10 Any 4)
       Example.chest tt = Matched true.
Proof.
  split.
  - apply (proj1 (doEnergiesMatch_without_energy_and_for_any_type
                    (ext := Example.imports) tt Example.combatMod _ tt)).
    reflexivity.
  - apply (proj2 (doEnergiesMatch_without_energy_and_for_any_type
                    (ext := Example.imports) tt (Example.costing 7 10 Any 4)
                    Example.chest tt)).
    + discriminate.
    + right. eexists. split; reflexivity.
Defined.

(** ** [someModHasEnergyRequirement] *)

(** What the function computes: some mod has no energy cost, or a cost whose
    type is not [Any]. *)
Lemma someModHasEnergyRequirement_computes (mods : list Mod) :
  someModHasEnergyRequirement mods = true
  <-> exists m, m ∈ mods /\ (energyCost (plug m) = None \/ hasElementalRequirement m).
Proof.
  unfold someModHasEnergyRequirement, hasElementalRequirement.
  rewrite existsb_exists. split.
  - intros (m & Hin & Hm). exists m. split; [by apply list_elem_of_In|].
    destruct (energyCost (plug m)) as [c|]; [|by left].
    right. exists c. split; [done|].
    apply negb_true_iff, bool_decide_eq_false in Hm. done.
  - intros (m & Hin & Hm). exists m. split; [by apply list_elem_of_In|].
    destruct Hm as [-> | (c & -> & Hc)]; [done|].
    apply negb_true_iff, bool_decide_eq_false. done.
Qed.

(** C4: on a collection whose only mod has no energy cost, the function
    answers [true], although no mod of the collection has a cost whose type
    is not [Any]. *)
Theorem someModHasEnergyRequirement_true_without_cost :
  someModHasEnergyRequirement [Example.free 1 40] = true
  /\ ~ (exists m, m ∈ [Example.free 1 40] /\ hasElementalRequirement m).
Proof.
  split; [reflexivity|].
  intros (m & Hin & c & Hc & _).
  apply list_elem_of_singleton in Hin. subst m. discriminate Hc.
Qed.

(** ** [stringifyMods] *)

Lemma append_cons (x : ascii) (a b : string) :
  String x a +:+ b = String x (a +:+ b).
Proof. reflexivity. Qed.

Lemma append_empty_l (a : string) : "" +:+ a = a.
Proof. reflexivity. Qed.

Lemma append_assoc (a b c : string) : (a +:+ b) +:+ c = a +:+ (b +:+ c).
Proof.
  induction a as [|x a IH]; [done|]. by rewrite !append_cons, IH.
Qed.

Lemma append_empty_r (a : string) : a +:+ "" = a.
Proof.
  induction a as [|x a IH]; [done|]. by rewrite append_cons, IH.
Qed.

(** Appends brought to the form [String c1 (String c2 (... +:+ s))]. *)
Ltac norm_append :=
  repeat first
    [ rewrite append_assoc | rewrite append_cons | rewrite append_empty_l ].
Ltac norm_append_in H :=
  repeat first
    [ rewrite append_assoc in H | rewrite append_cons in H
    | rewrite append_empty_l in H ].

(** A string is cut in one way only at the first occurrence of a character. *)
Lemma cut_at_first (c : ascii) (a b x y : string) :
  occurs c a = false -> occurs c b = false ->
  a +:+ String c x = b +:+ String c y ->
  a = b /\ x = y.
Proof.
  revert b. induction a as [|u a IH]; intros [|v b]; simpl; intros Ha Hb Heq;
    norm_append_in Heq.
  - by injection Heq.
  - injection Heq as <- _. rewrite Ascii.eqb_refl in Hb. done.
  - injection Heq as -> _. rewrite Ascii.eqb_refl in Ha. done.
  - injection Heq as -> Heq.
    apply orb_false_iff in Ha as [_ Ha]. apply orb_false_iff in Hb as [_ Hb].
    destruct (IH b Ha Hb Heq) as [-> ->]. done.
Qed.

Lemma occurs_string_of_uint (c : ascii) (d : Decimal.uint) :
  c = ","%char \/ c = ")"%char ->
  occurs c (NilEmpty.string_of_uint d) = false.
Proof. intros [-> | ->]; induction d; simpl; auto. Qed.

Lemma occurs_numberToString (c : ascii) (x : Z) :
  c = ","%char \/ c = ")"%char ->
  occurs c (numberToString x) = false.
Proof.
  intros Hc. unfold numberToString.
  destruct (Z.to_int x) as [d|d]; simpl.
  - by apply occurs_string_of_uint.
  - rewrite occurs_string_of_uint by done. by destruct Hc as [-> | ->].
Qed.

Lemma occurs_interpolate (c : ascii) (o : option Z) :
  c = ","%char \/ c = ")"%char ->
  occurs c (interpolate o) = false.
Proof.
  intros Hc. destruct o as [x|]; simpl.
  - by apply occurs_numberToString.
  - by destruct Hc as [-> | ->].
Qed.

Lemma numberToString_inj (x y : Z) :
  numberToString x = numberToString y -> x = y.
Proof.
  unfold numberToString. intros Heq.
  apply (f_equal NilEmpty.int_of_string) in Heq.
  rewrite !NilEmpty.isi in Heq. injection Heq as Heq.
  by apply DecimalZ.to_int_inj.
Qed.

Lemma numberToString_not_undefined (x : Z) :
  numberToString x <> "undefined"%string.
Proof.
  unfold numberToString. intros Heq.
  apply (f_equal NilEmpty.int_of_string) in Heq.
  rewrite NilEmpty.isi in Heq. discriminate Heq.
Qed.

Lemma interpolate_inj (o1 o2 : option Z) :
  interpolate o1 = interpolate o2 -> o1 = o2.
Proof.
  destruct o1 as [x|], o2 as [y|]; simpl; intros Heq.
  - f_equal. by apply numberToString_inj.
  - by apply numberToString_not_undefined in Heq.
  - symmetry in Heq. by apply numberToString_not_undefined in Heq.
  - done.
Qed.

Lemma energyTypeValue_inj (a b : DestinyEnergyType) :
  energyTypeValue a = energyTypeValue b -> a = b.
Proof. destruct a, b; simpl; intros Heq; first [done | discriminate Heq]. Qed.

(** The text of a mod, followed by anything, tells the triple of the mod and
    what follows. *)
Lemma stringifyMod_cut (m n : Mod) (s1 s2 : string) :
  stringifyMod m +:+ String "," s1 = stringifyMod n +:+ String "," s2 ->
  modKey m = modKey n /\ s1 = s2.
Proof.
  unfold stringifyMod, modKey. intros Heq. norm_append_in Heq.
  injection Heq as Heq.
  apply cut_at_first in Heq as [Ht Heq];
    [| by apply occurs_interpolate; left ..].
  apply cut_at_first in Heq as [Hc Heq];
    [| by apply occurs_interpolate; left ..].
  apply cut_at_first in Heq as [Hh Heq];
    [| by apply occurs_numberToString; right ..].
  injection Heq as ->.
  apply interpolate_inj in Ht, Hc. apply numberToString_inj in Hh.
  split; [|done]. rewrite Hh. f_equal. f_equal; [|done].
  destruct (energyCost (plug m)) as [c1|], (energyCost (plug n)) as [c2|];
    simpl in *; try done.
  injection Ht as Ht. apply energyTypeValue_inj in Ht. by rewrite Ht.
Qed.

Lemma stringifyMod_of_modKey (m n : Mod) :
  modKey m = modKey n -> stringifyMod m = stringifyMod n.
Proof.
  unfold modKey, stringifyMod. intros [= Ht Hc Hh]. rewrite Hh, Hc.
  destruct (energyCost (plug m)) as [c1|], (energyCost (plug n)) as [c2|];
    simpl in *; try done.
  injection Ht as Ht. by rewrite Ht.
Qed.

Lemma stringifyModsFrom_keyOfEntries (acc : string) (p : list (option Mod)) :
  stringifyModsFrom acc p = acc +:+ keyOfEntries p.
Proof.
  revert acc. induction p as [|[m|] p IH]; intros acc; simpl.
  - by rewrite append_empty_r.
  - rewrite IH. by norm_append.
  - rewrite IH. by norm_append.
Qed.

Lemma stringifyMods_keyOfEntries (p : list (option Mod)) :
  stringifyMods p = keyOfEntries p.
Proof. unfold stringifyMods. by rewrite stringifyModsFrom_keyOfEntries. Qed.

Lemma keyOfEntries_inj (p q : list (option Mod)) :
  keyOfEntries p = keyOfEntries q -> Forall2 sameEntry p q.
Proof.
  revert q. induction p as [|[m|] p IH]; intros [|[n|] q]; simpl; intros Heq.
  - constructor.
  - unfold stringifyMod in Heq. norm_append_in Heq. done.
  - norm_append_in Heq. done.
  - unfold stringifyMod in Heq. norm_append_in Heq. done.
  - apply stringifyMod_cut in Heq as [Hk Heq]. constructor; [done | by apply IH].
  - unfold stringifyMod in Heq. norm_append_in Heq. done.
  - norm_append_in Heq. done.
  - unfold stringifyMod in Heq. norm_append_in Heq. done.
  - norm_append_in Heq. injection Heq as Heq. constructor; [done | by apply IH].
Qed.

Lemma keyOfEntries_same (p q : list (option Mod)) :
  Forall2 sameEntry p q -> keyOfEntries p = keyOfEntries q.
Proof.
  induction 1 as [|[m|] [n|] p q Hent _ IH]; simpl in *; try done.
  - by rewrite (stringifyMod_of_modKey m n Hent), IH.
  - by rewrite IH.
Qed.

Lemma stringifyMods_iff (p q : list (option Mod)) :
  stringifyMods p = stringifyMods q <-> Forall2 sameEntry p q.
Proof.
  rewrite !stringifyMods_keyOfEntries. split.
  - apply keyOfEntries_inj.
  - apply keyOfEntries_same.
Qed.

Lemma sameEntry_refl (a : option Mod) : sameEntry a a.
Proof. by destruct a. Qed.

Lemma swapEntries_same (p : list (option Mod)) (i j : nat) (m n : Mod) :
  p !! i = Some (Some m) -> p !! j = Some (Some n) -> modKey m = modKey n ->
  Forall2 sameEntry (swapEntries i j p) p.
Proof.
  intros Hi Hj Hk. unfold swapEntries. rewrite Hi, Hj.
  apply Forall2_same_length_lookup_2.
  - by rewrite !length_insert.
  - intros k x y Hx Hy.
    destruct (decide (k = j)) as [-> | Hkj].
    + rewrite list_lookup_insert_eq in Hx
        by (rewrite length_insert; by eapply lookup_lt_Some).
      rewrite Hj in Hy. injection Hx as <-. injection Hy as <-. done.
    + rewrite list_lookup_insert_ne in Hx by done.
      destruct (decide (k = i)) as [-> | Hki].
      * rewrite list_lookup_insert_eq in Hx by (by eapply lookup_lt_Some).
        rewrite Hi in Hy. injection Hx as <-. injection Hy as <-. done.
      * rewrite list_lookup_insert_ne in Hx by done.
        rewrite Hx in Hy. injection Hy as <-. apply sameEntry_refl.
Qed.

(** C8: two arrangements have the same key exactly when, position by
    position, both hold nothing or both hold mods with the same energy type,
    energy cost and plug category; so the exchange of two mods that agree on
    the three leaves the key as it is, and a list that holds one arrangement
    per key holds an arrangement and its exchange as one entry. *)
Theorem stringifyMods_same_key_iff_same_entries :
  (forall p q : list (option Mod),
      stringifyMods p = stringifyMods q <-> Forall2 sameEntry p q)
  /\ (forall (p : list (option Mod)) (i j : nat) (m n : Mod),
         p !! i = Some (Some m) -> p !! j = Some (Some n) ->
         modKey m = modKey n ->
         stringifyMods (swapEntries i j p) = stringifyMods p
         /\ forall l : list (list (option Mod)),
              NoDup (stringifyMods <$> l) -> p ∈ l ->
              swapEntries i j p <> p -> swapEntries i j p ∉ l).
Proof.
  split; [apply stringifyMods_iff|].
  intros p i j m n Hi Hj Hk.
  assert (Hsame : stringifyMods (swapEntries i j p) = stringifyMods p)
    by (apply stringifyMods_iff; by eapply swapEntries_same).
  split; [done|].
  intros l Hnodup Hp Hne Hswap.
  apply list_elem_of_lookup in Hp as [a Ha].
  apply list_elem_of_lookup in Hswap as [b Hb].
  assert (a = b) as ->.
  { eapply NoDup_lookup; [exact Hnodup | |].
    - rewrite list_lookup_fmap, Ha. reflexivity.
    - rewrite list_lookup_fmap, Hb. simpl. by rewrite Hsame. }
  rewrite Ha in Hb. injection Hb as Hb. by apply Hne.
Qed.

Lemma stringifyMods_exchange_witness :
  let p := [Some Example.emberA; Some Example.emberB; None; None; None] in
  stringifyMods (swapEntries 0 1 p) = stringifyMods p
  /\ swapEntries 0 1 p ∉ [p].
Proof.
  intros p.
  destruct (proj2 stringifyMods_same_key_iff_same_entries p 0%nat 1%nat
              Example.emberA Example.emberB eq_refl eq_refl eq_refl)
    as [Hkey Hone].
  split; [exact Hkey|].
  apply Hone.
  - apply NoDup_singleton.
  - apply list_elem_of_here.
  - discriminate.
Defined.

(** ** The [Map] of assignments *)

Lemma mapGet_mapSet {V : Type} (k k' : string) (v : V) (m : list (string * V)) :
  mapGet k (mapSet k' v m) = if decide (k' = k) then Some v else mapGet k m.
Proof.
  induction m as [|[k0 v0] m IH]; simpl.
  - rewrite bool_decide_decide. by destruct (decide (k' = k)).
  - rewrite !bool_decide_decide.
    destruct (decide (k0 = k')) as [-> | Hne]; simpl; rewrite !bool_decide_decide.
    + by destruct (decide (k' = k)).
    + destruct (decide (k0 = k)) as [-> | Hne'].
      * destruct (decide (k' = k)); [congruence | done].
      * apply IH.
Qed.

Lemma mapGet_mapPush {V : Type} (k k' : string) (x : V)
    (m : list (string * list V)) :
  mapGet k (mapPush k' x m)
  = if decide (k' = k) then (fun l => l ++ [x]) <$> mapGet k m else mapGet k m.
Proof.
  induction m as [|[k0 l0] m IH]; simpl.
  - by destruct (decide (k' = k)).
  - rewrite !bool_decide_decide.
    destruct (decide (k0 = k')) as [-> | Hne]; simpl; rewrite !bool_decide_decide.
    + by destruct (decide (k' = k)).
    + destruct (decide (k0 = k)) as [-> | Hne'].
      * destruct (decide (k' = k)); [congruence | done].
      * apply IH.
Qed.

(** [push] keeps the keys and their order. *)
Lemma mapPush_keys {V : Type} (k : string) (x : V) (m : list (string * list V)) :
  (mapPush k x m).*1 = m.*1.
Proof.
  induction m as [|[k0 l0] m IH]; simpl; [done|].
  destruct (bool_decide (k0 = k)); rewrite !fmap_cons; simpl; [done|].
  by rewrite IH.
Qed.

(** ** Lines 62-90 *)

Section PartitionProperties.

Context {D2ManifestDefinitions UpgradeSpendTier : Type}.
Context {ext : Imports D2ManifestDefinitions UpgradeSpendTier}.

Implicit Types (items : list DimItem) (mods : list Mod) (m : Mod) (k : string).

Lemma emptyAssignments_lookup_from items k (acc : list (string * list Mod)) :
  mapGet k (foldl (fun acc item => mapSet (item_id item) [] acc) acc items)
  = if decide (k ∈ item_id <$> items) then Some [] else mapGet k acc.
Proof.
  revert acc. induction items as [|item items IH]; intros acc; simpl.
  - destruct (decide (k ∈ [])) as [Hin|]; [by apply elem_of_nil in Hin | done].
  - rewrite IH, mapGet_mapSet.
    destruct (decide (k ∈ item_id <$> items)) as [Hin | Hnin].
    + rewrite decide_True; [done | by right].
    + destruct (decide (item_id item = k)) as [<- | Hne].
      * rewrite decide_True; [done | by left].
      * rewrite decide_False; [done|].
        intros [?|?]%elem_of_cons; [congruence | done].
Qed.

Lemma emptyAssignments_lookup items k :
  mapGet k (emptyAssignments items)
  = if decide (k ∈ item_id <$> items) then Some [] else None.
Proof. unfold emptyAssignments. by rewrite emptyAssignments_lookup_from. Qed.

Lemma partitionMods_snoc items mods m :
  partitionMods items (mods ++ [m])
  = partitionStep items (partitionMods items mods) m.
Proof. unfold partitionMods. by rewrite foldl_snoc. Qed.

(** The item that [find] answers is the first of [items] whose bucket maps to
    the plug category of the mod. *)
Lemma itemForMod_first items m item :
  itemForMod items m = Some item ->
  exists i : nat,
    items !! i = Some item
    /\ bucketsToCategories !! item_bucket_hash item = Some (plugCategoryHash (plug m))
    /\ forall (j : nat) other,
         (j < i)%nat -> items !! j = Some other ->
         bucketsToCategories !! item_bucket_hash other
         <> Some (plugCategoryHash (plug m)).
Proof.
  unfold itemForMod. induction items as [|x items IH]; simpl; [done|].
  case_bool_decide as Hx.
  - intros [= ->]. exists 0%nat. repeat split; [done|]. intros j other Hj. lia.
  - intros Hfind. destruct (IH Hfind) as (i & Hi & Hmatch & Hfirst).
    exists (S i). repeat split; [done..|].
    intros [|j] other Hj Hother; simpl in Hother.
    + by injection Hother as <-.
    + apply (Hfirst j); [lia | done].
Qed.

Lemma itemForMod_None items m :
  itemForMod items m = None
  <-> forall item, item ∈ items ->
        bucketsToCategories !! item_bucket_hash item
        <> Some (plugCategoryHash (plug m)).
Proof.
  unfold itemForMod. induction items as [|x items IH]; simpl.
  - split; [|done]. intros _ item Hin. by apply elem_of_nil in Hin.
  - case_bool_decide as Hx.
    + split; [done|]. intros Hall. exfalso. apply (Hall x); [by left | done].
    + rewrite IH. split.
      * intros Hall item [-> | Hin]%elem_of_cons; [done | by apply Hall].
      * intros Hall item Hin. apply Hall. by right.
Qed.

(** The buckets and the assignments after the loop over [mods]. *)
Lemma partitionMods_buckets items mods :
  generalMods (partitionMods items mods)
  = filter (fun m => plugCategoryHash (plug m)
                     = armor2PlugCategoryHashesByName_general) mods
  /\ combatMods (partitionMods items mods)
     = filter (fun m => (plugCategoryHash (plug m)
                         <> armor2PlugCategoryHashesByName_general)
                        /\ (plugCategoryHash (plug m)
                            ∈ combatCompatiblePlugCategoryHashes)) mods
  /\ raidMods (partitionMods items mods)
     = filter (fun m => (plugCategoryHash (plug m)
                         <> armor2PlugCategoryHashesByName_general)
                        /\ (plugCategoryHash (plug m)
                            ∉ combatCompatiblePlugCategoryHashes)
                        /\ (plugCategoryHash (plug m)
                            ∈ raidModPlugCategoryHashes)) mods.
Proof.
  induction mods as [|m mods IH] using rev_ind; [done|].
  rewrite partitionMods_snoc, !filter_app. destruct IH as (IHg & IHc & IHr).
  unfold partitionStep.
  rewrite !filter_cons, !filter_nil.
  repeat case_bool_decide; repeat case_decide; simpl;
    rewrite ?app_nil_r, ?IHg, ?IHc, ?IHr;
    try (destruct (itemForMod items m); simpl);
    rewrite ?app_nil_r, ?IHg, ?IHc, ?IHr; first [done | tauto].
Qed.

Lemma partitionMods_lookup items mods k :
  mapGet k (assignments (partitionMods items mods))
  = if decide (k ∈ item_id <$> items)
    then Some (filter (fun m => committedTo items k m = true) mods)
    else None.
Proof.
  induction mods as [|m mods IH] using rev_ind.
  - unfold partitionMods. simpl. apply emptyAssignments_lookup.
  - rewrite partitionMods_snoc, filter_app, filter_cons, filter_nil.
    unfold partitionStep, committedTo, slotSpecific.
    repeat case_bool_decide; simpl; rewrite ?IH, ?app_nil_r; try done.
    destruct (itemForMod items m) as [item|]; simpl;
      rewrite ?mapGet_mapPush, ?IH, ?app_nil_r; [|done].
    rewrite bool_decide_decide.
    destruct (decide (item_id item = k)) as [<- | Hne]; simpl.
    + by destruct (decide (item_id item ∈ item_id <$> items)).
    + by rewrite app_nil_r.
Qed.

(** The keys of the assignments, and their order, are those that the loop over
    [items] leaves. *)
Lemma partitionMods_keys items mods :
  (assignments (partitionMods items mods)).*1 = (emptyAssignments items).*1.
Proof.
  induction mods as [|m mods IH] using rev_ind; [done|].
  rewrite partitionMods_snoc. unfold partitionStep.
  repeat case_bool_decide; simpl; try done.
  destruct (itemForMod items m); simpl; [|done].
  by rewrite mapPush_keys.
Qed.

End PartitionProperties.

(** ** Lines 108-227 *)

(** *** The loop over the indices *)

Lemma itemLoop_ext (fits fits' : nat -> DimItem -> Mod -> bool)
    (p : list (option Mod)) (i : nat) (items : list DimItem) :
  (forall j item m, fits j item m = fits' j item m) ->
  itemLoop fits p i items = itemLoop fits' p i items.
Proof.
  intros Hext. revert i. induction items as [|item items IH]; intros i; simpl.
  - done.
  - destruct (modAt p i) as [m|]; [|apply IH].
    rewrite Hext, IH. done.
Qed.

(** The loop runs to its end exactly when every entry that holds a mod fits. *)
Lemma itemLoop_true (fits : nat -> DimItem -> Mod -> bool)
    (p : list (option Mod)) (i : nat) (items : list DimItem) :
  itemLoop fits p i items = true
  <-> forall (j : nat) item m,
        items !! j = Some item -> modAt p (i + j) = Some m ->
        fits (i + j)%nat item m = true.
Proof.
  revert i. induction items as [|item items IH]; intros i; simpl.
  - split; [|done]. intros _ j item m Hj. done.
  - split.
    + intros Hloop [|j] item' m Hj Hm; simpl in Hj.
      * injection Hj as <-. rewrite Nat.add_0_r in *.
        rewrite Hm in Hloop. by destruct (fits i item m).
      * replace (i + S j)%nat with (S i + j)%nat in * by lia.
        assert (Hrest : itemLoop fits p (S i) items = true).
        { destruct (modAt p i) as [m0|]; [|done].
          by destruct (fits i item m0). }
        by apply (proj1 (IH (S i)) Hrest j item' m).
    + intros Hall.
      assert (Hrest : itemLoop fits p (S i) items = true).
      { apply IH. intros j item' m Hj Hm.
        replace (S i + j)%nat with (i + S j)%nat in * by lia.
        by apply Hall. }
      destruct (modAt p i) as [m0|] eqn:Hm0; [|done].
      specialize (Hall 0%nat item m0). rewrite Nat.add_0_r in Hall.
      by rewrite Hall, Hrest.
Qed.

Lemma itemLoop_fails (fits : nat -> DimItem -> Mod -> bool)
    (p : list (option Mod)) (items : list DimItem) (i : nat) :
  failsAt fits p items i -> itemLoop fits p 0 items = false.
Proof.
  intros (item & m & Hitem & Hm & Hfits).
  destruct (itemLoop fits p 0 items) eqn:Hloop; [|done].
  rewrite itemLoop_true in Hloop.
  specialize (Hloop i item m Hitem Hm). simpl in Hloop. congruence.
Qed.

(** Leaving at the first entry that does not fit decides as the evaluation of
    all the checks does. *)
Lemma itemLoop_checkAll_from (fits : nat -> DimItem -> Mod -> bool)
    (p : list (option Mod)) (i : nat) (items : list DimItem) :
  itemLoop fits p i items
  = forallb (fun b : bool => b)
      (imap (fun j item =>
               match modAt p (i + j) with
               | None => true
               | Some m => fits (i + j)%nat item m
               end) items).
Proof.
  revert i. induction items as [|item items IH]; intros i; [done|].
  rewrite imap_cons. simpl. rewrite Nat.add_0_r.
  rewrite (imap_ext _ (fun j item =>
             match modAt p (S i + j) with
             | None => true
             | Some m => fits (S i + j)%nat item m
             end)).
  - rewrite <- IH. destruct (modAt p i) as [m|]; [|done].
    by destruct (fits i item m).
  - intros j x _. simpl. by replace (i + S j)%nat with (S (i + j)) by lia.
Qed.

Lemma itemLoop_checkAll (fits : nat -> DimItem -> Mod -> bool)
    (p : list (option Mod)) (items : list DimItem) :
  itemLoop fits p 0 items = checkAll fits p items.
Proof. apply itemLoop_checkAll_from. Qed.

(** *** The events and the candidates *)

Lemma candidates_app (l1 l2 : list SearchEvent) :
  candidates (l1 ++ l2) = candidates l1 ++ candidates l2.
Proof. apply omap_app. Qed.

Lemma elem_of_candidates (events : list SearchEvent)
    (c g r : list (option Mod)) :
  (c, g, r) ∈ candidates events <-> Candidate c g r ∈ events.
Proof.
  unfold candidates. rewrite list_elem_of_omap. split.
  - intros (e & Hin & He). destruct e; try done. by injection He as -> -> ->.
  - intros Hin. by exists (Candidate c g r).
Qed.

Section SearchProperties.

Context {D2ManifestDefinitions UpgradeSpendTier : Type}.
Context {ext : Imports D2ManifestDefinitions UpgradeSpendTier}.

Implicit Types (items : list DimItem) (st : SolverState).
Implicit Types (c g r : list (option Mod)) (cs gs rs : list (list (option Mod))).

Lemma sameStore_refl st : sameStore st st.
Proof. by repeat split. Qed.

Lemma sameStore_record st0 st (e : SearchEvent) :
  sameStore st0 st -> sameStore st0 (record e st).
Proof. intros (Hb & Hs & He). by repeat split. Qed.

Lemma combatFits_store st st' item m :
  sameStore st st' -> combatFits st item m = combatFits st' item m.
Proof.
  intros (_ & Hs & He). unfold combatFits, socketsTakeTag. by rewrite Hs, He.
Qed.

Lemma generalFits_store st st' c i item m :
  sameStore st st' -> generalFits st c i item m = generalFits st' c i item m.
Proof. intros (_ & _ & He). unfold generalFits. by rewrite He. Qed.

Lemma raidFits_store st st' c g i item m :
  sameStore st st' -> raidFits st c g i item m = raidFits st' c g i item m.
Proof.
  intros (_ & Hs & He). unfold raidFits, socketsTakeTag. by rewrite Hs, He.
Qed.

(** One turn of each loop: the objects are as before, and the events of the
    turn are those that the objects determine. *)
Lemma raidStep_spec items c g st0 st r :
  sameStore st0 st ->
  sameStore st0 (raidStep items c g st r)
  /\ trace (raidStep items c g st r)
     = trace st ++ raidEvents st0 items c g [r].
Proof.
  intros Hst. unfold raidStep, raidEvents. simpl. rewrite app_nil_r.
  rewrite (itemLoop_ext _ (raidFits st0 c g))
    by (intros; symmetry; by apply raidFits_store, sameStore_record).
  destruct (itemLoop (raidFits st0 c g) r 0 items); simpl.
  - split; [by do 2 apply sameStore_record|]. by rewrite <- app_assoc.
  - split; [by apply sameStore_record | done].
Qed.

Lemma raidModLoop_spec items c g rs st0 st :
  sameStore st0 st ->
  sameStore st0 (raidModLoop items c g rs st)
  /\ trace (raidModLoop items c g rs st)
     = trace st ++ raidEvents st0 items c g rs.
Proof.
  unfold raidModLoop. revert st. induction rs as [|r rs IH]; intros st Hst; simpl.
  - by rewrite app_nil_r.
  - destruct (raidStep_spec items c g st0 st r Hst) as [Hst' Htrace].
    destruct (IH _ Hst') as [Hend Hevents]. split; [done|].
    rewrite Hevents, Htrace, <- app_assoc. f_equal.
    unfold raidEvents. rewrite bind_cons. simpl. by rewrite app_nil_r.
Qed.

Lemma generalStep_spec items rs c st0 st g :
  sameStore st0 st ->
  sameStore st0 (generalStep items rs c st g)
  /\ trace (generalStep items rs c st g)
     = trace st ++ generalEvents st0 items rs c [g].
Proof.
  intros Hst. unfold generalStep, generalEvents. simpl. rewrite app_nil_r.
  rewrite (itemLoop_ext _ (generalFits st0 c))
    by (intros; symmetry; by apply generalFits_store, sameStore_record).
  destruct (itemLoop (generalFits st0 c) g 0 items); simpl.
  - destruct (raidModLoop_spec items c g rs st0 (record (TryGeneral c g) st))
      as [Hend Hevents]; [by apply sameStore_record|].
    split; [done|]. rewrite Hevents. simpl. by rewrite <- app_assoc.
  - split; [by apply sameStore_record | done].
Qed.

Lemma generalModLoop_spec items gs rs c st0 st :
  sameStore st0 st ->
  sameStore st0 (generalModLoop items gs rs c st)
  /\ trace (generalModLoop items gs rs c st)
     = trace st ++ generalEvents st0 items rs c gs.
Proof.
  unfold generalModLoop. revert st. induction gs as [|g gs IH]; intros st Hst; simpl.
  - by rewrite app_nil_r.
  - destruct (generalStep_spec items rs c st0 st g Hst) as [Hst' Htrace].
    destruct (IH _ Hst') as [Hend Hevents]. split; [done|].
    rewrite Hevents, Htrace, <- app_assoc. f_equal.
    unfold generalEvents. rewrite bind_cons. simpl. by rewrite app_nil_r.
Qed.

Lemma combatStep_spec items gs rs st0 st c :
  sameStore st0 st ->
  sameStore st0 (combatStep items gs rs st c)
  /\ trace (combatStep items gs rs st c)
     = trace st ++ combatEvents st0 items gs rs [c].
Proof.
  intros Hst. unfold combatStep, combatEvents. simpl. rewrite app_nil_r.
  rewrite (itemLoop_ext _ (fun _ => combatFits st0))
    by (intros; symmetry; by apply combatFits_store, sameStore_record).
  destruct (itemLoop (fun _ => combatFits st0) c 0 items); simpl.
  - destruct (generalModLoop_spec items gs rs c st0 (record (TryCombat c) st))
      as [Hend Hevents]; [by apply sameStore_record|].
    split; [done|]. rewrite Hevents. simpl. by rewrite <- app_assoc.
  - split; [by apply sameStore_record | done].
Qed.

Lemma combatModLoop_spec items cs gs rs st0 st :
  sameStore st0 st ->
  sameStore st0 (combatModLoop items cs gs rs st)
  /\ trace (combatModLoop items cs gs rs st)
     = trace st ++ combatEvents st0 items gs rs cs.
Proof.
  unfold combatModLoop. revert st. induction cs as [|c cs IH]; intros st Hst; simpl.
  - by rewrite app_nil_r.
  - destruct (combatStep_spec items gs rs st0 st c Hst) as [Hst' Htrace].
    destruct (IH _ Hst') as [Hend Hevents]. split; [done|].
    rewrite Hevents, Htrace, <- app_assoc. f_equal.
    unfold combatEvents. rewrite bind_cons. simpl. by rewrite app_nil_r.
Qed.

End SearchProperties.

(** *** The two objects keyed by item id *)

Lemma keyBy_lookup (items : list DimItem) (k : string) :
  keyBy items !! k = lastWithId k items.
Proof.
  unfold keyBy, lastWithId.
  induction items as [|item items IH] using rev_ind; [done|].
  rewrite foldl_snoc, filter_app, filter_cons, filter_nil, lookup_insert.
  destruct (decide (item_id item = k)) as [Heq | Hne].
  - by rewrite last_snoc.
  - by rewrite app_nil_r.
Qed.

Lemma lastWithId_is_Some (items : list DimItem) (item : DimItem) :
  item ∈ items -> is_Some (lastWithId (item_id item) items).
Proof.
  intros Hin. unfold lastWithId.
  assert (Hfilter : item ∈ filter (fun x => item_id x = item_id item) items)
    by (by apply list_elem_of_filter).
  destruct (filter (fun x => item_id x = item_id item) items) as [|x l] eqn:Hl
    using rev_ind.
  - by apply elem_of_nil in Hfilter.
  - rewrite last_snoc. by eexists.
Qed.

Section SoundnessProperties.

Context {D2ManifestDefinitions UpgradeSpendTier : Type}.
Context {ext : Imports D2ManifestDefinitions UpgradeSpendTier}.

Implicit Types (items : list DimItem) (st : SolverState) (m : Mod).
Implicit Types (c g r : list (option Mod)) (cs gs rs : list (list (option Mod))).

Lemma elem_of_raidEvents st items c g rs (e : SearchEvent) :
  e ∈ raidEvents st items c g rs
  <-> exists r, r ∈ rs
        /\ (e = TryRaid c g r
            \/ (e = Candidate c g r
                /\ itemLoop (raidFits st c g) r 0 items = true)).
Proof.
  unfold raidEvents. rewrite list_elem_of_bind. split.
  - intros (r & He & Hr). exists r. split; [done|].
    apply elem_of_cons in He as [-> | He]; [by left|].
    destruct (itemLoop (raidFits st c g) r 0 items); [|by apply elem_of_nil in He].
    apply list_elem_of_singleton in He. by right.
  - intros (r & Hr & [-> | [-> Hok]]); exists r; (split; [|done]).
    + by left.
    + rewrite Hok. right. by left.
Qed.

Lemma elem_of_generalEvents st items rs c gs (e : SearchEvent) :
  e ∈ generalEvents st items rs c gs
  <-> exists g, g ∈ gs
        /\ (e = TryGeneral c g
            \/ (itemLoop (generalFits st c) g 0 items = true
                /\ e ∈ raidEvents st items c g rs)).
Proof.
  unfold generalEvents. rewrite list_elem_of_bind. split.
  - intros (g & He & Hg). exists g. split; [done|].
    apply elem_of_cons in He as [-> | He]; [by left|].
    destruct (itemLoop (generalFits st c) g 0 items);
      [by right | by apply elem_of_nil in He].
  - intros (g & Hg & [-> | [Hok He]]); exists g; (split; [|done]).
    + by left.
    + rewrite Hok. by right.
Qed.

Lemma elem_of_combatEvents st items gs rs cs (e : SearchEvent) :
  e ∈ combatEvents st items gs rs cs
  <-> exists c, c ∈ cs
        /\ (e = TryCombat c
            \/ (itemLoop (fun _ => combatFits st) c 0 items = true
                /\ e ∈ generalEvents st items rs c gs)).
Proof.
  unfold combatEvents. rewrite list_elem_of_bind. split.
  - intros (c & He & Hc). exists c. split; [done|].
    apply elem_of_cons in He as [-> | He]; [by left|].
    destruct (itemLoop (fun _ => combatFits st) c 0 items);
      [by right | by apply elem_of_nil in He].
  - intros (c & Hc & [-> | [Hok He]]); exists c; (split; [|done]).
    + by left.
    + rewrite Hok. by right.
Qed.

(** An event of the two inner loops under [c] means that [c] ran through
    its loop; an event of the inner loop under [c] and [g], that [g] did. *)
Lemma inner_event_combat_passed st items gs rs cs (e : SearchEvent) c :
  e ∈ combatEvents st items gs rs cs ->
  (exists g, e = TryGeneral c g) \/ (exists g r, e = TryRaid c g r)
  \/ (exists g r, e = Candidate c g r) ->
  itemLoop (fun _ => combatFits st) c 0 items = true.
Proof.
  rewrite elem_of_combatEvents. intros (c' & _ & [-> | [Hok He]]) Hshape.
  - destruct Hshape as [[? ?] | [(? & ? & ?) | (? & ? & ?)]]; done.
  - apply elem_of_generalEvents in He as (g' & _ & [-> | [_ He]]).
    + destruct Hshape as [[? [= ->]] | [(? & ? & ?) | (? & ? & ?)]]; done.
    + apply elem_of_raidEvents in He as (r' & _ & [-> | [-> _]]).
      * destruct Hshape as [[? ?] | [(? & ? & [= ->]) | (? & ? & ?)]]; done.
      * destruct Hshape as [[? ?] | [(? & ? & ?) | (? & ? & [= ->])]]; done.
Qed.

Lemma inner_event_general_passed st items gs rs cs (e : SearchEvent) c g :
  e ∈ combatEvents st items gs rs cs ->
  (exists r, e = TryRaid c g r) \/ (exists r, e = Candidate c g r) ->
  itemLoop (generalFits st c) g 0 items = true.
Proof.
  rewrite elem_of_combatEvents. intros (c' & _ & [-> | [_ He]]) Hshape.
  - destruct Hshape as [[? ?] | [? ?]]; done.
  - apply elem_of_generalEvents in He as (g' & _ & [-> | [Hok He]]).
    + destruct Hshape as [[? ?] | [? ?]]; done.
    + apply elem_of_raidEvents in He as (r' & _ & [-> | [-> _]]).
      * destruct Hshape as [[? [= -> ->]] | [? ?]]; done.
      * destruct Hshape as [[? ?] | [? [= -> ->]]]; done.
Qed.

Lemma candidate_raid_passed st items gs rs cs c g r :
  Candidate c g r ∈ combatEvents st items gs rs cs ->
  itemLoop (raidFits st c g) r 0 items = true.
Proof.
  rewrite elem_of_combatEvents. intros (c' & _ & [? | [_ He]]); [done|].
  apply elem_of_generalEvents in He as (g' & _ & [? | [_ He]]); [done|].
  apply elem_of_raidEvents in He as (r' & _ & [? | [[= -> -> ->] Hok]]); done.
Qed.

(** *** What a check that passes says *)

Lemma socketsTakeTag_spec st item m :
  socketsTakeTag st item
    (getModTypeTagByPlugCategoryHash (plugCategoryHash (plug m))) = true ->
  tagTaken st item (Some m).
Proof.
  unfold socketsTakeTag, tagTaken.
  destruct (getModTypeTagByPlugCategoryHash (plugCategoryHash (plug m)))
    as [tag|]; [|done].
  intros [_ Hsome]%andb_true_iff.
  destruct (itemSocketMetadata st !! item_id item) as [[metadatas|]|]; try done.
  apply existsb_exists in Hsome as (metadata & Hin & Htag).
  exists tag, metadatas, metadata. repeat split; try done.
  - by apply list_elem_of_In.
  - by apply bool_decide_eq_true in Htag.
Qed.

Lemma combatFits_spec st item m :
  combatFits st item m = true ->
  exists e,
    itemEnergies st !! item_id item = Some e
    /\ used e + energyCostOf m <= capacity e
    /\ typeFitsSlot e (Some m)
    /\ tagTaken st item (Some m).
Proof.
  unfold combatFits. intros [Hvalid Htag]%andb_true_iff.
  destruct (itemEnergies st !! item_id item) as [e|]; [|done].
  apply andb_true_iff in Hvalid as [Hle Htype].
  exists e. repeat split.
  - by apply Z.leb_le.
  - by apply itemTakesType_spec.
  - by apply socketsTakeTag_spec.
Qed.

Lemma generalFits_spec st c i item m :
  generalFits st c i item m = true ->
  exists e,
    itemEnergies st !! item_id item = Some e
    /\ used e + energyCostOf m + energyCostAt (modAt c i) <= capacity e
    /\ typeFitsSlot e (Some m)
    /\ Compatible (energyTypeOf m) (energyTypeAt (modAt c i)).
Proof.
  unfold generalFits.
  destruct (itemEnergies st !! item_id item) as [e|]; [|done].
  intros [[Hle Htype]%andb_true_iff Hcombat]%andb_true_iff.
  exists e. repeat split.
  - by apply Z.leb_le.
  - by apply itemTakesType_spec.
  - by apply energyTypesCompatible_spec.
Qed.

Lemma raidFits_spec st c g i item m :
  raidFits st c g i item m = true ->
  exists e,
    itemEnergies st !! item_id item = Some e
    /\ used e + energyCostAt (modAt g i) + energyCostAt (modAt c i)
       + energyCostOf m <= capacity e
    /\ typeFitsSlot e (Some m)
    /\ Compatible (energyTypeOf m) (energyTypeAt (modAt g i))
    /\ Compatible (energyTypeOf m) (energyTypeAt (modAt c i))
    /\ tagTaken st item (Some m).
Proof.
  unfold raidFits. intros [Hvalid Htag]%andb_true_iff.
  destruct (itemEnergies st !! item_id item) as [e|]; [|done].
  apply andb_true_iff in Hvalid as [[[Hle Htype]%andb_true_iff Hg]%andb_true_iff Hc].
  exists e. repeat split.
  - by apply Z.leb_le.
  - by apply itemTakesType_spec.
  - by apply energyTypesCompatible_spec.
  - by apply energyTypesCompatible_spec.
  - by apply socketsTakeTag_spec.
Qed.

Lemma mutuallyCompatible_at (x : option Mod) m :
  Compatible (energyTypeOf m) (energyTypeAt x) -> mutuallyCompatible (Some m) x.
Proof. by destruct x. Qed.

End SoundnessProperties.

(** ** The solver *)

Section SolverTheorems.

Context {D2ManifestDefinitions UpgradeSpendTier : Type}.
Context {ext : Imports D2ManifestDefinitions UpgradeSpendTier}.

Implicit Types (items : list DimItem) (mods : list Mod) (st : SolverState).
Implicit Types (defs : D2ManifestDefinitions) (upgradeSpendTier : UpgradeSpendTier).
Implicit Types (c g r : list (option Mod)) (cs gs rs : list (list (option Mod))).

(** The run of the three loops from the seeded state. *)
Lemma searchedState_spec items mods defs upgradeSpendTier :
  let st := seededState items mods defs upgradeSpendTier in
  sameStore st (searchedState items mods defs upgradeSpendTier)
  /\ trace (searchedState items mods defs upgradeSpendTier)
     = combatEvents st items
         (generatePermutationsOfFive (generalMods (buckets st)) stringifyMods)
         (generatePermutationsOfFive (raidMods (buckets st)) stringifyMods)
         (generatePermutationsOfFive (combatMods (buckets st)) stringifyMods).
Proof.
  intros st. unfold searchedState. fold st.
  destruct (combatModLoop_spec items
              (generatePermutationsOfFive (combatMods (buckets st)) stringifyMods)
              (generatePermutationsOfFive (generalMods (buckets st)) stringifyMods)
              (generatePermutationsOfFive (raidMods (buckets st)) stringifyMods)
              st st (sameStore_refl st)) as [Hstore Htrace].
  split; [done|]. by rewrite Htrace.
Qed.

Lemma seededState_lookup items mods defs upgradeSpendTier item :
  item ∈ items ->
  is_Some (itemEnergies (seededState items mods defs upgradeSpendTier)
             !! item_id item).
Proof.
  intros Hin. unfold seededState, buildItemEnergies, mapValues. simpl.
  rewrite lookup_fmap, keyBy_lookup.
  destruct (lastWithId_is_Some items item Hin) as [x ->]. by eexists.
Qed.

(** C1, as the specification has it, fails: with a mod of cost 5 committed to
    a helmet of capacity 3, the triple of the three empty permutations is a
    candidate, and the bound does not hold at the helmet. *)
Lemma soundAtEveryIndex_fails_on_overfull_slot :
  ~ soundAtEveryIndex (ext := Example.imports)
      Example.smallItems [Example.helmetMod] tt tt.
Proof.
  intros Hsound.
  assert (Hin : (Example.none5, Example.none5, Example.none5)
                ∈ acceptedTriples (ext := Example.imports)
                    Example.smallItems [Example.helmetMod] tt tt)
    by (vm_compute; apply list_elem_of_here).
  destruct (Hsound _ _ _ 0%nat Example.smallHelmet Hin eq_refl)
    as [(e & He & Hle) _].
  vm_compute in He. injection He as <-. simpl in Hle. lia.
Qed.

(** C1, amended: every triple that reaches the candidate point satisfies, at
    every slot index, the compatibility of each of its three mods with the
    type of the slot, the mutual compatibility of each pair of its mods, and
    the membership of the tags of its combat and raid mods among those of the
    sockets; and at every index where one of the three permutations holds a
    mod, the bound of the seeded use plus the three costs by the capacity. *)
Theorem accepted_triples_satisfy_constraints
    items mods defs upgradeSpendTier c g r (i : nat) (item : DimItem) :
  (c, g, r) ∈ acceptedTriples items mods defs upgradeSpendTier ->
  items !! i = Some item ->
  let st := seededState items mods defs upgradeSpendTier in
  typesAndTagsFit st item (modAt c i) (modAt g i) (modAt r i)
  /\ (modAt c i <> None \/ modAt g i <> None \/ modAt r i <> None ->
      withinCapacity st item (modAt c i) (modAt g i) (modAt r i)).
Proof.
  intros Hacc Hitem st. unfold acceptedTriples in Hacc.
  destruct (searchedState_spec items mods defs upgradeSpendTier) as [_ Htrace].
  fold st in Htrace. rewrite Htrace in Hacc. clear Htrace.
  apply elem_of_candidates in Hacc.
  assert (HC : forall m, modAt c i = Some m -> combatFits st item m = true).
  { intros m Hm.
    assert (Hloop : itemLoop (fun _ => combatFits st) c 0 items = true).
    { eapply inner_event_combat_passed; [exact Hacc|].
      right. right. by exists g, r. }
    rewrite itemLoop_true in Hloop. by apply (Hloop i item m). }
  assert (HG : forall m, modAt g i = Some m -> generalFits st c i item m = true).
  { intros m Hm.
    assert (Hloop : itemLoop (generalFits st c) g 0 items = true).
    { eapply inner_event_general_passed; [exact Hacc|]. right. by exists r. }
    rewrite itemLoop_true in Hloop. by apply (Hloop i item m). }
  assert (HR : forall m, modAt r i = Some m -> raidFits st c g i item m = true).
  { intros m Hm.
    pose proof (candidate_raid_passed _ _ _ _ _ _ _ _ Hacc) as Hloop.
    rewrite itemLoop_true in Hloop. by apply (Hloop i item m). }
  destruct (seededState_lookup items mods defs upgradeSpendTier item)
    as [e He]; [by eapply list_elem_of_lookup_2|].
  fold st in He. clear Hacc.
  unfold typesAndTagsFit, withinCapacity.
  assert (HC' : forall m, modAt c i = Some m ->
            used e + energyCostOf m <= capacity e
            /\ typeFitsSlot e (Some m) /\ tagTaken st item (Some m)).
  { intros m Hm. destruct (combatFits_spec _ _ _ (HC m Hm)) as (e' & He' & ?).
    rewrite He in He'. by injection He' as <-. }
  assert (HG' : forall m, modAt g i = Some m ->
            used e + energyCostOf m + energyCostAt (modAt c i) <= capacity e
            /\ typeFitsSlot e (Some m)
            /\ mutuallyCompatible (Some m) (modAt c i)).
  { intros m Hm. destruct (generalFits_spec _ _ _ _ _ (HG m Hm))
      as (e' & He' & ? & ? & ?).
    rewrite He in He'. injection He' as <-.
    repeat split; try done. by apply mutuallyCompatible_at. }
  assert (HR' : forall m, modAt r i = Some m ->
            used e + energyCostAt (modAt g i) + energyCostAt (modAt c i)
            + energyCostOf m <= capacity e
            /\ typeFitsSlot e (Some m)
            /\ mutuallyCompatible (Some m) (modAt g i)
            /\ mutuallyCompatible (Some m) (modAt c i)
            /\ tagTaken st item (Some m)).
  { intros m Hm. destruct (raidFits_spec _ _ _ _ _ _ (HR m Hm))
      as (e' & He' & ? & ? & ? & ? & ?).
    rewrite He in He'. injection He' as <-.
    repeat split; try done; by apply mutuallyCompatible_at. }
  clear HC HG HR.
  revert HC' HG' HR'.
  destruct (modAt c i) as [mc|], (modAt g i) as [mg|], (modAt r i) as [mr|];
    intros HC HG HR;
    try (destruct (HC _ eq_refl) as (? & ? & ?));
    try (destruct (HG _ eq_refl) as (? & ? & ?));
    try (destruct (HR _ eq_refl) as (? & ? & ? & ? & ?));
    (split; [exists e; repeat split; done|]);
    intros Hsome; exists e; (split; [done|]); simpl in *;
    first [lia | by destruct Hsome as [? | [? | ?]]].
Qed.

End SolverTheorems.

Lemma accepted_triples_witness :
  let c := [Some Example.combatMod; None; None; None; None] in
  let g := [None; Some Example.generalMod; None; None; None] in
  let r := Example.none5 in
  let st := seededState (ext := Example.imports) Example.items
              [Example.combatMod; Example.generalMod] tt tt in
  typesAndTagsFit (ext := Example.imports) st Example.helmet
    (modAt c 0) (modAt g 0) (modAt r 0)
  /\ (modAt c 0 <> None \/ modAt g 0 <> None \/ modAt r 0 <> None ->
      withinCapacity st Example.helmet (modAt c 0) (modAt g 0) (modAt r 0)).
Proof.
  intros c g r st.
  apply (accepted_triples_satisfy_constraints (ext := Example.imports)
           Example.items [Example.combatMod; Example.generalMod] tt tt
           c g r 0%nat Example.helmet).
  - refine (bool_decide_unpack _ _). vm_compute. exact I.
  - reflexivity.
Defined.

Section SearchTheorems.

Context {D2ManifestDefinitions UpgradeSpendTier : Type}.
Context {ext : Imports D2ManifestDefinitions UpgradeSpendTier}.

Implicit Types (items : list DimItem) (mods : list Mod) (st : SolverState).
Implicit Types (defs : D2ManifestDefinitions) (upgradeSpendTier : UpgradeSpendTier).
Implicit Types (c g r : list (option Mod)) (cs gs rs : list (list (option Mod))).

(** *** The candidates are those of the search that checks every index *)

Lemma candidates_raidEvents st items c g rs :
  candidates (raidEvents st items c g rs)
  = rs ≫= (fun r => if checkAll (raidFits st c g) r items
                    then [(c, g, r)] else []).
Proof.
  unfold raidEvents. induction rs as [|r rs IH]; [done|].
  rewrite !bind_cons, candidates_app, IH, itemLoop_checkAll.
  by destruct (checkAll (raidFits st c g) r items).
Qed.

Lemma candidates_generalEvents st items rs c gs :
  candidates (generalEvents st items rs c gs)
  = gs ≫= (fun g =>
             if checkAll (generalFits st c) g items
             then rs ≫= (fun r => if checkAll (raidFits st c g) r items
                                  then [(c, g, r)] else [])
             else []).
Proof.
  unfold generalEvents. induction gs as [|g gs IH]; [done|].
  rewrite !bind_cons, candidates_app, IH, itemLoop_checkAll.
  destruct (checkAll (generalFits st c) g items); [|done].
  by rewrite <- candidates_raidEvents.
Qed.

Lemma candidates_combatEvents st items gs rs cs :
  candidates (combatEvents st items gs rs cs) = naiveTriples st items cs gs rs.
Proof.
  unfold combatEvents, naiveTriples. induction cs as [|c cs IH]; [done|].
  rewrite !bind_cons, candidates_app, IH, itemLoop_checkAll.
  destruct (checkAll (fun _ => combatFits st) c items); [|done].
  by rewrite <- candidates_generalEvents.
Qed.

(** C3: a combat permutation that does not fit at some index has no general
    and no raid permutation taken up under it, and likewise a general
    permutation that does not fit has no raid permutation taken up under it;
    and the triples that reach the candidate point are those of the search
    that evaluates the check at every index before it decides. *)
Theorem early_exit_accepts_the_same_triples
    items mods defs upgradeSpendTier :
  let st := seededState items mods defs upgradeSpendTier in
  let events := trace (searchedState items mods defs upgradeSpendTier) in
  (forall c (i : nat),
      failsAt (fun _ => combatFits st) c items i ->
      forall g r,
        (TryGeneral c g ∉ events) /\ (TryRaid c g r ∉ events)
        /\ (Candidate c g r ∉ events))
  /\ (forall c g (i : nat),
         failsAt (generalFits st c) g items i ->
         forall r, (TryRaid c g r ∉ events) /\ (Candidate c g r ∉ events))
  /\ acceptedTriples items mods defs upgradeSpendTier
     = naiveTriples st items
         (generatePermutationsOfFive (combatMods (buckets st)) stringifyMods)
         (generatePermutationsOfFive (generalMods (buckets st)) stringifyMods)
         (generatePermutationsOfFive (raidMods (buckets st)) stringifyMods).
Proof.
  intros st events.
  destruct (searchedState_spec items mods defs upgradeSpendTier) as [_ Htrace].
  fold st events in Htrace.
  split; [|split].
  - intros c i Hfail g r. apply itemLoop_fails in Hfail.
    repeat split; intros Hin; rewrite Htrace in Hin;
      apply inner_event_combat_passed with (c := c) in Hin; eauto 6; congruence.
  - intros c g i Hfail r. apply itemLoop_fails in Hfail.
    repeat split; intros Hin; rewrite Htrace in Hin;
      apply inner_event_general_passed with (c := c) (g := g) in Hin;
      eauto; congruence.
  - unfold acceptedTriples. fold events. rewrite Htrace.
    apply candidates_combatEvents.
Qed.

(** *** The objects during the search *)

Lemma lastWithId_Some items (k : string) (item : DimItem) :
  lastWithId k items = Some item -> item ∈ items /\ item_id item = k.
Proof.
  unfold lastWithId. intros Hlast.
  assert (Hin : item ∈ filter (fun x => item_id x = k) items).
  { destruct (filter (fun x => item_id x = k) items) as [|x l] using rev_ind;
      [done|].
    rewrite last_snoc in Hlast. injection Hlast as ->.
    apply elem_of_app. right. by left. }
  by apply list_elem_of_filter in Hin as [? ?].
Qed.

(** C10, as the specification has it, fails in its account of the type: a
    helmet whose own energy type is [Any], under a tier that lets no item
    change its type, has a seeded state of type [Any]. *)
Lemma wildcardExactlyWhenFree_fails_on_plain_item :
  ~ wildcardExactlyWhenFree (ext := Example.imports) Example.plainItems [] tt tt.
Proof.
  intros Hiff.
  destruct (proj1 (Hiff Example.plainHelmet
                     {| used := 0; capacity := 10; type := Any |}
                     (list_elem_of_here _ _) eq_refl) eq_refl)
    as [Hnone | Hswap]; discriminate.
Qed.

(** C10, amended: the seeded state of an item id has for [used] the sum of
    the costs of the slot-specific mods committed to the id, a missing cost
    counting as zero, for [capacity] the answer of
    [upgradeSpendTierToMaxEnergy], and for [type] the wildcard when the item
    has no energy or may change its type, and the item's own type otherwise;
    no turn of the three loops changes the states, whether the permutation is
    abandoned or accepted, so that the permutations after a given one are
    evaluated as if that one had never been. *)
Theorem seeded_states_are_not_mutated items mods defs upgradeSpendTier :
  let st := seededState items mods defs upgradeSpendTier in
  (forall k : string,
      itemEnergies st !! k
      = (fun item =>
           {| used := sumBy (Some (filter (fun m => committedTo items k m = true)
                                     mods)) energyCostOf;
              capacity := upgradeSpendTierToMaxEnergy defs upgradeSpendTier item;
              type := match item_energy item with
                      | None => Any
                      | Some energy =>
                          if canSwapEnergyFromUpgradeSpendTier defs
                               upgradeSpendTier item
                          then Any else energyType energy
                      end |}) <$> lastWithId k items)
  /\ (forall st' gs rs c g r,
         itemEnergies (raidStep items c g st' r) = itemEnergies st'
         /\ itemEnergies (generalStep items rs c st' g) = itemEnergies st'
         /\ itemEnergies (combatStep items gs rs st' c) = itemEnergies st')
  /\ itemEnergies (searchedState items mods defs upgradeSpendTier)
     = itemEnergies st
  /\ (forall st' cs1 cs2 gs rs,
         trace (combatModLoop items (cs1 ++ cs2) gs rs st')
         = trace (combatModLoop items cs1 gs rs st')
           ++ trace (combatModLoop items cs2 gs rs (withoutTrace st')))
  /\ (forall st' c gs1 gs2 rs,
         trace (generalModLoop items (gs1 ++ gs2) rs c st')
         = trace (generalModLoop items gs1 rs c st')
           ++ trace (generalModLoop items gs2 rs c (withoutTrace st')))
  /\ (forall st' c g rs1 rs2,
         trace (raidModLoop items c g (rs1 ++ rs2) st')
         = trace (raidModLoop items c g rs1 st')
           ++ trace (raidModLoop items c g rs2 (withoutTrace st'))).
Proof.
  intros st.
  assert (Hwithout : forall st', sameStore st' (withoutTrace st'))
    by (intros st'; by repeat split).
  split; [|split; [|split; [|split; [|split]]]].
  - intros k. unfold st, seededState, buildItemEnergies, mapValues. simpl.
    rewrite lookup_fmap, keyBy_lookup.
    destruct (lastWithId k items) as [item|] eqn:Hlast; [|done]. simpl.
    apply lastWithId_Some in Hlast as [Hin <-].
    rewrite partitionMods_lookup, decide_True; [done|].
    by apply list_elem_of_fmap_2.
  - intros st' gs rs c g r. repeat split.
    + by destruct (raidStep_spec items c g st' st' r (sameStore_refl st'))
        as [(_ & _ & <-) _].
    + by destruct (generalStep_spec items rs c st' st' g (sameStore_refl st'))
        as [(_ & _ & <-) _].
    + by destruct (combatStep_spec items gs rs st' st' c (sameStore_refl st'))
        as [(_ & _ & <-) _].
  - by destruct (searchedState_spec items mods defs upgradeSpendTier)
      as [(_ & _ & <-) _].
  - intros st' cs1 cs2 gs rs.
    destruct (combatModLoop_spec items (cs1 ++ cs2) gs rs st' st'
                (sameStore_refl st')) as [_ ->].
    destruct (combatModLoop_spec items cs1 gs rs st' st'
                (sameStore_refl st')) as [_ ->].
    destruct (combatModLoop_spec items cs2 gs rs st' (withoutTrace st')
                (Hwithout st')) as [_ ->].
    unfold combatEvents. by rewrite bind_app, <- app_assoc.
  - intros st' c gs1 gs2 rs.
    destruct (generalModLoop_spec items (gs1 ++ gs2) rs c st' st'
                (sameStore_refl st')) as [_ ->].
    destruct (generalModLoop_spec items gs1 rs c st' st'
                (sameStore_refl st')) as [_ ->].
    destruct (generalModLoop_spec items gs2 rs c st' (withoutTrace st')
                (Hwithout st')) as [_ ->].
    unfold generalEvents. by rewrite bind_app, <- app_assoc.
  - intros st' c g rs1 rs2.
    destruct (raidModLoop_spec items c g (rs1 ++ rs2) st' st'
                (sameStore_refl st')) as [_ ->].
    destruct (raidModLoop_spec items c g rs1 st' st'
                (sameStore_refl st')) as [_ ->].
    destruct (raidModLoop_spec items c g rs2 st' (withoutTrace st')
                (Hwithout st')) as [_ ->].
    unfold raidEvents. by rewrite bind_app, <- app_assoc.
Qed.

End SearchTheorems.

Lemma early_exit_witness :
  let mods := [Example.combatMod; Example.generalMod] in
  let events :=
    trace (searchedState (ext := Example.imports) Example.items mods tt tt) in
  let misplaced := [None; Some Example.combatMod; None; None; None] in
  let c := [Some Example.combatMod; None; None; None; None] in
  let g := [Some Example.generalMod; None; None; None; None] in
  ((TryGeneral misplaced Example.none5 ∉ events)
   /\ (TryRaid misplaced Example.none5 Example.none5 ∉ events)
   /\ (Candidate misplaced Example.none5 Example.none5 ∉ events))
  /\ ((TryRaid c g Example.none5 ∉ events)
      /\ (Candidate c g Example.none5 ∉ events)).
Proof.
  intros mods events misplaced c g.
  pose proof (early_exit_accepts_the_same_triples (ext := Example.imports)
                Example.items mods tt tt) as (Hcombat & Hgeneral & _).
  split.
  - apply (Hcombat misplaced 1%nat).
    exists Example.gauntlets, Example.combatMod.
    split; [reflexivity|]. split; [reflexivity|]. vm_compute. reflexivity.
  - apply (Hgeneral c g 0%nat).
    exists Example.helmet, Example.generalMod.
    split; [reflexivity|]. split; [reflexivity|]. vm_compute. reflexivity.
Defined.

Section FirstItemProperties.

Context {D2ManifestDefinitions UpgradeSpendTier : Type}.
Context {ext : Imports D2ManifestDefinitions UpgradeSpendTier}.

Implicit Types (items : list DimItem) (mods : list Mod) (m : Mod) (k : string).

Lemma itemForMod_of_first items m item :
  firstItemFor items m item -> itemForMod items m = Some item.
Proof.
  intros (i & Hi & Hmatch & Hfirst). unfold itemForMod.
  revert i Hi Hfirst. induction items as [|x items IH]; intros i Hi Hfirst.
  - done.
  - simpl. destruct i as [|i]; simpl in Hi.
    + injection Hi as ->. by rewrite bool_decide_eq_true_2.
    + rewrite bool_decide_eq_false_2
        by (apply (Hfirst 0%nat x); [lia | done]).
      apply (IH i Hi). intros j other Hj Hother.
      apply (Hfirst (S j) other); [lia | done].
Qed.

Lemma itemForMod_iff_first items m item :
  itemForMod items m = Some item <-> firstItemFor items m item.
Proof. split; [apply itemForMod_first | apply itemForMod_of_first]. Qed.

Lemma slotSpecific_iff m : slotSpecific m = true <-> inNoBucket m.
Proof.
  unfold slotSpecific, inNoBucket.
  rewrite !andb_true_iff, !negb_true_iff, !bool_decide_eq_false. tauto.
Qed.

Lemma committedTo_iff items k m :
  committedTo items k m = true
  <-> inNoBucket m /\ exists item, firstItemFor items m item /\ item_id item = k.
Proof.
  unfold committedTo. rewrite andb_true_iff, slotSpecific_iff. split.
  - intros [Hno Hitem]. split; [done|].
    destruct (itemForMod items m) as [item|] eqn:Hfind; [|done].
    exists item. split; [by apply itemForMod_iff_first|].
    by apply bool_decide_eq_true in Hitem.
  - intros [Hno (item & Hfirst & Hk)]. split; [done|].
    rewrite (itemForMod_of_first items m item Hfirst).
    by apply bool_decide_eq_true.
Qed.

(** A slot-specific mod with a matching item is in the list under the id of
    the first such item. *)
Lemma partitionMods_commits items mods m item :
  m ∈ mods -> inNoBucket m -> firstItemFor items m item ->
  exists l,
    mapGet (item_id item) (assignments (partitionMods items mods)) = Some l
    /\ m ∈ l.
Proof.
  intros Hin Hno Hfirst. rewrite partitionMods_lookup.
  assert (Hitem : item ∈ items).
  { destruct Hfirst as (i & Hi & _). by eapply list_elem_of_lookup_2. }
  rewrite decide_True by (by apply list_elem_of_fmap_2).
  eexists. split; [done|]. apply list_elem_of_filter. split; [|done].
  apply committedTo_iff. split; [done|]. by exists item.
Qed.

(** The mods of the list under an id are mods given, slot-specific, whose
    first matching item has the id. *)
Lemma partitionMods_committed_only items mods k (l : list Mod) m :
  mapGet k (assignments (partitionMods items mods)) = Some l -> m ∈ l ->
  m ∈ mods /\ inNoBucket m
  /\ exists item, firstItemFor items m item /\ item_id item = k.
Proof.
  rewrite partitionMods_lookup.
  destruct (decide (k ∈ item_id <$> items)); [|done].
  intros [= <-] [Hcommitted Hin]%list_elem_of_filter.
  apply committedTo_iff in Hcommitted as [Hno Hitem]. done.
Qed.

End FirstItemProperties.

Section ReturnedMapping.

Context {D2ManifestDefinitions UpgradeSpendTier : Type}.
Context {ext : Imports D2ManifestDefinitions UpgradeSpendTier}.

Implicit Types (items : list DimItem) (mods : list Mod) (m : Mod).
Implicit Types (defs : D2ManifestDefinitions) (upgradeSpendTier : UpgradeSpendTier).

(** C2: the call returns the assignments as the loop over [mods] left them:
    under each item id the slot-specific mods committed to it, in the order
    of [mods], and nothing under any other key; no run of the three loops,
    from whatever state and over whatever permutations, changes the
    assignments or the buckets. *)
Theorem getModAssignments_returns_the_committed_mods
    items mods defs upgradeSpendTier :
  getModAssignments items mods defs upgradeSpendTier
  = Normal (assignments (partitionMods items mods))
  /\ (forall k : string,
         mapGet k (assignments (partitionMods items mods))
         = if decide (k ∈ item_id <$> items)
           then Some (filter (fun m => committedTo items k m = true) mods)
           else None)
  /\ (assignments (partitionMods items mods)).*1 = (emptyAssignments items).*1
  /\ (forall (st : SolverState) (cs gs rs : list (list (option Mod))),
         buckets (combatModLoop items cs gs rs st) = buckets st).
Proof.
  split; [|split; [|split]].
  - unfold getModAssignments.
    by destruct (searchedState_spec items mods defs upgradeSpendTier)
      as [(<- & _ & _) _].
  - intros k. apply partitionMods_lookup.
  - apply partitionMods_keys.
  - intros st cs gs rs.
    by destruct (combatModLoop_spec items cs gs rs st st (sameStore_refl st))
      as [(<- & _ & _) _].
Qed.

(** C7: the loop over [mods] puts a mod into the general bucket when its
    plug category is the general one, else into the combat bucket when the
    category is combat compatible, else into the raid bucket when the
    category is a raid one, and else commits it under the id of the first
    item whose bucket maps to the category: such a mod is in the list under
    that id, and the lists hold no other mods; a mod that no bucket and no
    item takes is in no bucket and in no list of the assignments, and the
    call returns these assignments. *)
Theorem partitionMods_classifies_in_order items mods :
  let b := partitionMods items mods in
  generalMods b
  = filter (fun m => plugCategoryHash (plug m)
                     = armor2PlugCategoryHashesByName_general) mods
  /\ combatMods b
     = filter (fun m => (plugCategoryHash (plug m)
                         <> armor2PlugCategoryHashesByName_general)
                        /\ (plugCategoryHash (plug m)
                            ∈ combatCompatiblePlugCategoryHashes)) mods
  /\ raidMods b
     = filter (fun m => (plugCategoryHash (plug m)
                         <> armor2PlugCategoryHashesByName_general)
                        /\ (plugCategoryHash (plug m)
                            ∉ combatCompatiblePlugCategoryHashes)
                        /\ (plugCategoryHash (plug m)
                            ∈ raidModPlugCategoryHashes)) mods
  /\ (forall k : string,
         mapGet k (assignments b)
         = if decide (k ∈ item_id <$> items)
           then Some (filter (fun m => committedTo items k m = true) mods)
           else None)
  /\ (forall (k : string) m,
         committedTo items k m = true
         <-> inNoBucket m
             /\ exists item, firstItemFor items m item /\ item_id item = k)
  /\ (forall m item,
         m ∈ mods -> inNoBucket m -> firstItemFor items m item ->
         exists l, mapGet (item_id item) (assignments b) = Some l /\ m ∈ l)
  /\ (forall (k : string) (l : list Mod) m,
         mapGet k (assignments b) = Some l -> m ∈ l ->
         m ∈ mods /\ inNoBucket m
         /\ exists item, firstItemFor items m item /\ item_id item = k)
  /\ (forall m item,
         itemForMod items m = Some item <-> firstItemFor items m item)
  /\ (forall m,
         inNoBucket m ->
         (forall item, item ∈ items ->
            bucketsToCategories !! item_bucket_hash item
            <> Some (plugCategoryHash (plug m))) ->
         (m ∉ generalMods b) /\ (m ∉ combatMods b) /\ (m ∉ raidMods b)
         /\ forall (k : string) l, mapGet k (assignments b) = Some l -> m ∉ l)
  /\ (forall defs upgradeSpendTier,
         getModAssignments items mods defs upgradeSpendTier
         = Normal (assignments b)).
Proof.
  intros b. destruct (partitionMods_buckets items mods) as (Hg & Hc & Hr).
  fold b in Hg, Hc, Hr.
  split; [done|]. split; [done|]. split; [done|].
  split; [apply partitionMods_lookup|].
  split; [apply committedTo_iff|].
  split; [apply partitionMods_commits|].
  split; [apply partitionMods_committed_only|].
  split; [apply itemForMod_iff_first|].
  split.
  - intros m (Hng & Hnc & Hnr) Hnone.
    rewrite Hg, Hc, Hr. repeat split.
    + by intros [? _]%list_elem_of_filter.
    + by intros [[_ ?] _]%list_elem_of_filter.
    + by intros [(_ & _ & ?) _]%list_elem_of_filter.
    + intros k l Hl Hin.
      destruct (partitionMods_committed_only items mods k l m Hl Hin)
        as (_ & _ & item & (i & Hi & Hmatch & _) & _).
      apply (Hnone item); [by eapply list_elem_of_lookup_2 | done].
  - intros defs upgradeSpendTier. unfold getModAssignments.
    by destruct (searchedState_spec items mods defs upgradeSpendTier)
      as [(<- & _ & _) _].
Qed.

(** C9, amended: the call validates nothing: whatever the number of items
    and the sign of the costs, it throws nothing and returns the assignments
    computed from the input as it is, with an entry for every item id and for
    no other key, each slot-specific mod with a matching item in the list
    under the id of the first such item whatever its cost, and nothing else
    in the lists. *)
Theorem getModAssignments_never_throws items mods defs upgradeSpendTier :
  let a := assignments (partitionMods items mods) in
  getModAssignments items mods defs upgradeSpendTier = Normal a
  /\ ~ failsFast (getModAssignments items mods defs upgradeSpendTier)
  /\ (forall k : string, is_Some (mapGet k a) <-> k ∈ item_id <$> items)
  /\ (forall m item,
         m ∈ mods -> inNoBucket m -> firstItemFor items m item ->
         exists l, mapGet (item_id item) a = Some l /\ m ∈ l)
  /\ (forall (k : string) (l : list Mod) m,
         mapGet k a = Some l -> m ∈ l ->
         m ∈ mods /\ inNoBucket m
         /\ exists item, firstItemFor items m item /\ item_id item = k).
Proof.
  intros a.
  assert (Hvalue : getModAssignments items mods defs upgradeSpendTier
                   = Normal a).
  { unfold getModAssignments.
    by destruct (searchedState_spec items mods defs upgradeSpendTier)
      as [(<- & _ & _) _]. }
  split; [done|]. split; [rewrite Hvalue; by intros [message Hthrow]|].
  split; [|split].
  - intros k. unfold a. rewrite partitionMods_lookup.
    destruct (decide (k ∈ item_id <$> items)) as [Hk | Hk].
    + split; [done | by eexists].
    + split; [by intros [? ?] | done].
  - apply partitionMods_commits.
  - apply partitionMods_committed_only.
Qed.

End ReturnedMapping.

Lemma partitionMods_witness :
  let mods := [Example.combatMod; Example.strayMod; Example.helmetMod] in
  let b := partitionMods (ext := Example.imports) Example.items mods in
  ((Example.strayMod ∉ generalMods b) /\ (Example.strayMod ∉ combatMods b)
   /\ (Example.strayMod ∉ raidMods b)
   /\ forall (k : string) l,
        mapGet k (assignments b) = Some l -> Example.strayMod ∉ l)
  /\ exists l,
       mapGet (item_id Example.helmet) (assignments b) = Some l
       /\ Example.helmetMod ∈ l.
Proof.
  intros mods b.
  pose proof (partitionMods_classifies_in_order (ext := Example.imports)
                Example.items mods)
    as (_ & _ & _ & _ & _ & Hcommits & _ & _ & Hdropped & _).
  split.
  - apply (Hdropped Example.strayMod).
    + repeat split; [discriminate | |];
        intros Hin; apply list_elem_of_singleton in Hin; discriminate Hin.
    + intros item Hin. apply (itemForMod_None (ext := Example.imports)
                                Example.items Example.strayMod); [|done].
      reflexivity.
  - apply (Hcommits Example.helmetMod Example.helmet).
    + do 2 right. left.
    + repeat split; [discriminate | |];
        intros Hin; apply list_elem_of_singleton in Hin; discriminate Hin.
    + exists 0%nat. split; [reflexivity|]. split; [reflexivity|].
      intros j other Hj. lia.
Defined.

Lemma getModAssignments_never_throws_witness :
  malformed Example.items [Example.refundMod]
  /\ exists l,
       mapGet (item_id Example.helmet)
         (assignments (partitionMods (ext := Example.imports) Example.items
                         [Example.refundMod])) = Some l
       /\ Example.refundMod ∈ l.
Proof.
  split.
  - right. exists Example.refundMod. eexists. split; [apply list_elem_of_here|].
    split; [reflexivity|]. simpl. lia.
  - pose proof (getModAssignments_never_throws (ext := Example.imports)
                  Example.items [Example.refundMod] tt tt)
      as (_ & _ & _ & Hcommits & _).
    apply (Hcommits Example.refundMod Example.helmet).
    + apply list_elem_of_here.
    + repeat split; [discriminate | |];
        intros Hin; apply list_elem_of_singleton in Hin; discriminate Hin.
    + exists 0%nat. split; [reflexivity|]. split; [reflexivity|].
      intros j other Hj. lia.
Defined.

(** C9, as the specification has it, fails: with four items, with six, and
    with five items and a mod of negative cost, the call returns. *)
Lemma malformed_input_is_not_rejected :
  let fewer := [Example.helmet; Example.gauntlets; Example.chest; Example.legs] in
  let more := Example.items ++ [Example.armor "ghost" 6 105 Any 10] in
  (malformed fewer []
   /\ ~ failsFast (getModAssignments (ext := Example.imports) fewer [] tt tt))
  /\ (malformed more []
      /\ ~ failsFast (getModAssignments (ext := Example.imports) more [] tt tt))
  /\ (malformed Example.items [Example.refundMod]
      /\ getModAssignments (ext := Example.imports) Example.items
           [Example.refundMod] tt tt
         = Normal [("helmet"%string, [Example.refundMod]);
                   ("gauntlets"%string, []); ("chest"%string, []);
                   ("legs"%string, []); ("classItem"%string, [])]).
Proof.
  intros fewer more. split; [|split]; split.
  - left. simpl. lia.
  - by intros [message Hthrow].
  - left. simpl. lia.
  - by intros [message Hthrow].
  - right. exists Example.refundMod. eexists. split; [apply list_elem_of_here|].
    split; [reflexivity|]. simpl. lia.
  - vm_compute. reflexivity.
Qed.

(** ** Runs of the examples *)

Example stringifyMods_example :
  stringifyMods
    [Some Example.emberA; None; Some (Example.free 1 40);
     Some Example.refundMod; None]
  = "(2,5,20),,(undefined,undefined,40),(1,-2,40),,"%string.
Proof. vm_compute. reflexivity. Qed.

Example getModAssignments_example :
  getModAssignments (ext := Example.imports) Example.items
    [Example.combatMod; Example.generalMod; Example.helmetMod; Example.strayMod]
    tt tt
  = Normal [("helmet"%string, [Example.helmetMod]); ("gauntlets"%string, []);
            ("chest"%string, []); ("legs"%string, []);
            ("classItem"%string, [])].
Proof. vm_compute. reflexivity. Qed.

Example acceptedTriples_example :
  acceptedTriples (ext := Example.imports) Example.items [Example.combatMod] tt tt
  = [(Example.none5, Example.none5, Example.none5);
     ([Some Example.combatMod; None; None; None; None],
      Example.none5, Example.none5)].
Proof. vm_compute. reflexivity. Qed.

Example permutationsOfFive_example :
  (length (permutationsOfFive [Example.emberA; Example.emberB] stringifyMods)
   = length (permutationsOfFive [Example.emberA] stringifyMods) + 10)%nat.
Proof. vm_compute. reflexivity. Qed.

(** * Further properties of the module *)

(** ** [someModHasEnergyRequirement] on whole collections *)

(** X1: [someModHasEnergyRequirement] answers [false] exactly when every mod
    of the collection has an energy cost and the type of that cost is [Any],
    hence on the empty collection; on a concatenation it answers the
    disjunction of the answers on the parts. *)
Theorem someModHasEnergyRequirement_false_iff_all_any :
  (forall mods : list Mod,
      someModHasEnergyRequirement mods = false
      <-> forall m, m ∈ mods ->
            exists c, energyCost (plug m) = Some c /\ cost_energyType c = Any)
  /\ someModHasEnergyRequirement [] = false
  /\ (forall mods mods' : list Mod,
         someModHasEnergyRequirement (mods ++ mods')
         = someModHasEnergyRequirement mods || someModHasEnergyRequirement mods').
Proof.
  split; [|split; [done|]].
  - intros mods. unfold someModHasEnergyRequirement.
    induction mods as [|m mods IH]; simpl.
    + split; [|done]. intros _ m Hin. by apply elem_of_nil in Hin.
    + rewrite orb_false_iff, IH. split.
      * intros [Hm Hall] x [-> | Hin]%elem_of_cons; [|by apply Hall].
        destruct (energyCost (plug m)) as [c|]; [|done].
        exists c. split; [done|].
        by apply negb_false_iff, bool_decide_eq_true in Hm.
      * intros Hall. split.
        -- destruct (Hall m) as (c & -> & Hc); [by left|].
           by apply negb_false_iff, bool_decide_eq_true.
        -- intros x Hin. apply Hall. by right.
  - intros mods mods'. unfold someModHasEnergyRequirement. apply existsb_app.
Qed.

(** ** [stringifyMods] on parts of an arrangement *)

Lemma keyOfEntries_app (p q : list (option Mod)) :
  keyOfEntries (p ++ q) = keyOfEntries p +:+ keyOfEntries q.
Proof.
  induction p as [|x p IH]; simpl; [done|].
  rewrite IH. by rewrite !append_assoc.
Qed.

(** X2: the key of an arrangement is the key of its first part followed by
    the key of the rest; the key of [n] empty positions is [n] commas, so the
    empty arrangement has the empty key; and two arrangements with the same
    key have the same length. *)
Theorem stringifyMods_of_parts :
  (forall p q : list (option Mod),
      stringifyMods (p ++ q) = stringifyMods p +:+ stringifyMods q)
  /\ (forall n : nat,
         stringifyMods (replicate n None)
         = string_of_list_ascii (replicate n ","%char))
  /\ (forall p q : list (option Mod),
         stringifyMods p = stringifyMods q -> length p = length q).
Proof.
  split; [|split].
  - intros p q. rewrite !stringifyMods_keyOfEntries. apply keyOfEntries_app.
  - intros n. rewrite stringifyMods_keyOfEntries.
    induction n as [|n IH]; simpl; [done|]. rewrite IH. by norm_append.
  - intros p q Hkey. apply stringifyMods_iff in Hkey.
    by eapply Forall2_length.
Qed.

Lemma stringifyMods_of_parts_witness :
  stringifyMods [Some Example.emberA; None]
  = stringifyMods [Some Example.emberB; None]
  /\ length [Some Example.emberA; None] = length [Some Example.emberB; None].
Proof.
  split; [reflexivity|].
  apply (proj2 (proj2 stringifyMods_of_parts)
           [Some Example.emberA; None] [Some Example.emberB; None]).
  reflexivity.
Defined.

(** ** Where the mods go *)

Lemma mapPush_values {V : Type} (k : string) (x : V)
    (m : list (string * list V)) :
  is_Some (mapGet k m) -> concat (mapPush k x m).*2 ≡ₚ x :: concat m.*2.
Proof.
  induction m as [|[k0 l0] m IH]; simpl; [by intros [? ?]|].
  rewrite bool_decide_decide. destruct (decide (k0 = k)) as [-> | Hne].
  - intros _. rewrite !fmap_cons. simpl. solve_Permutation.
  - intros Hsome. rewrite !fmap_cons. simpl. rewrite (IH Hsome).
    solve_Permutation.
Qed.

Lemma mapSet_keys {V : Type} (k : string) (v : V) (m : list (string * V)) :
  (mapSet k v m).*1 = if decide (k ∈ m.*1) then m.*1 else m.*1 ++ [k].
Proof.
  induction m as [|[k0 v0] m IH]; [done|].
  cbn [mapSet]. rewrite (fmap_cons fst (k0, v0) m). cbn [fst].
  case_bool_decide as Heq.
  - subst k0. rewrite fmap_cons. cbn [fst].
    rewrite decide_True; [done | by left].
  - rewrite fmap_cons, IH. cbn [fst].
    destruct (decide (k ∈ m.*1)) as [Hin | Hnin].
    + rewrite decide_True; [done | by right].
    + rewrite decide_False; [done|].
      intros [? | ?]%elem_of_cons; [congruence | done].
Qed.

Lemma emptyAssignments_snoc (items : list DimItem) (item : DimItem) :
  emptyAssignments (items ++ [item])
  = mapSet (item_id item) [] (emptyAssignments items).
Proof. unfold emptyAssignments. by rewrite foldl_snoc. Qed.

Lemma emptyAssignments_keys (items : list DimItem) :
  NoDup (emptyAssignments items).*1
  /\ (forall k : string,
         k ∈ (emptyAssignments items).*1 <-> k ∈ item_id <$> items)
  /\ (NoDup (item_id <$> items) ->
      (emptyAssignments items).*1 = item_id <$> items).
Proof.
  induction items as [|item items (IHnodup & IHin & IHeq)] using rev_ind.
  - split; [constructor|]. split; [done|]. done.
  - rewrite emptyAssignments_snoc, mapSet_keys, fmap_app. simpl.
    destruct (decide (item_id item ∈ (emptyAssignments items).*1))
      as [Hin | Hnin].
    + split; [done|]. split.
      * intros k. rewrite elem_of_app, IHin, list_elem_of_singleton.
        split; [by left|]. intros [? | ->]; [done | by apply IHin].
      * intros [_ [Hdisj _]]%NoDup_app. exfalso.
        apply IHin in Hin. apply (Hdisj _ Hin). by left.
    + split.
      * apply NoDup_app. split; [done|]. split; [|apply NoDup_singleton].
        by intros k Hk ->%list_elem_of_singleton.
      * split.
        -- intros k. by rewrite !elem_of_app, IHin.
        -- intros [Hnodup _]%NoDup_app. by rewrite IHeq.
Qed.

Section WhereTheModsGo.

Context {D2ManifestDefinitions UpgradeSpendTier : Type}.
Context {ext : Imports D2ManifestDefinitions UpgradeSpendTier}.

Implicit Types (items : list DimItem) (mods : list Mod) (m : Mod) (k : string).
Implicit Types (defs : D2ManifestDefinitions) (upgradeSpendTier : UpgradeSpendTier).

Lemma itemForMod_elem_of items m item :
  itemForMod items m = Some item -> item ∈ items.
Proof.
  unfold itemForMod. intros Hfind. apply find_some in Hfind as [Hin _].
  by apply list_elem_of_In.
Qed.

(** X3: the loop over [mods] neither loses nor doubles a mod: the mods of
    the three buckets, those of the lists of the assignments, and the
    slot-specific mods that no item takes are, together, the mods given,
    each as often as it was given. *)
Theorem partitionMods_conserves_mods items mods :
  let b := partitionMods items mods in
  mods ≡ₚ generalMods b ++ combatMods b ++ raidMods b
          ++ concat (assignments b).*2
          ++ filter (fun m => dropped items m = true) mods.
Proof.
  induction mods as [|m mods IH] using rev_ind; simpl in *.
  - unfold partitionMods. simpl.
    assert (Hempty : concat (emptyAssignments items).*2 = []).
    { unfold emptyAssignments.
      assert (Hfrom : forall acc : list (string * list Mod),
                 concat acc.*2 = [] ->
                 concat (foldl (fun acc item => mapSet (item_id item) [] acc)
                           acc items).*2 = []).
      { induction items as [|item items IHitems]; intros acc Hacc; [done|].
        simpl. apply IHitems.
        clear IHitems. induction acc as [|[k0 l0] acc IHacc]; simpl; [done|].
        rewrite fmap_cons in Hacc. simpl in Hacc.
        apply app_eq_nil in Hacc as [-> Hacc].
        destruct (bool_decide (k0 = item_id item)); rewrite fmap_cons; simpl;
          [done | by apply IHacc]. }
      by apply Hfrom. }
    by rewrite Hempty.
  - rewrite partitionMods_snoc, filter_app, filter_cons, filter_nil.
    assert (Hpush : forall item,
               itemForMod items m = Some item ->
               concat (mapPush (item_id item) m
                         (assignments (partitionMods items mods))).*2
               ≡ₚ m :: concat (assignments (partitionMods items mods)).*2).
    { intros item Hitem. apply mapPush_values.
      rewrite partitionMods_lookup, decide_True; [by eexists|].
      apply list_elem_of_fmap_2. by eapply itemForMod_elem_of. }
    destruct (decide (dropped items m = true)) as [Hd | Hd];
      unfold dropped, slotSpecific in Hd; unfold partitionStep;
      repeat case_bool_decide; simpl in Hd |- *; try done;
      destruct (itemForMod items m) as [item|] eqn:Hitem; simpl in Hd |- *;
      try done;
      rewrite ?(Hpush item eq_refl); rewrite IH at 1; solve_Permutation.
Qed.

(** X4: no mod is committed under two item ids, and no committed mod is in a
    bucket: a mod in the list under [k] is in the list under [k'] only when
    [k'] is [k], and it is in none of the three buckets. *)
Theorem partitionMods_commits_to_one_place items mods m k k'
    (l l' : list Mod) :
  mapGet k (assignments (partitionMods items mods)) = Some l ->
  mapGet k' (assignments (partitionMods items mods)) = Some l' ->
  m ∈ l ->
  (m ∈ l' -> k' = k)
  /\ (m ∉ generalMods (partitionMods items mods))
  /\ (m ∉ combatMods (partitionMods items mods))
  /\ (m ∉ raidMods (partitionMods items mods)).
Proof.
  rewrite !partitionMods_lookup.
  destruct (decide (k ∈ item_id <$> items)); [|done].
  destruct (decide (k' ∈ item_id <$> items)); [|done].
  intros [= <-] [= <-] [Hk _]%list_elem_of_filter.
  unfold committedTo in Hk. apply andb_true_iff in Hk as [Hspecific Hk].
  destruct (itemForMod items m) as [item|] eqn:Hitem; [|done].
  apply bool_decide_eq_true in Hk.
  unfold slotSpecific in Hspecific.
  apply andb_true_iff in Hspecific as [[Hng Hnc]%andb_true_iff Hnr].
  apply negb_true_iff, bool_decide_eq_false in Hng, Hnc, Hnr.
  destruct (partitionMods_buckets items mods) as (-> & -> & ->).
  repeat split.
  - intros [Hk' _]%list_elem_of_filter. unfold committedTo in Hk'.
    rewrite Hitem in Hk'. apply andb_true_iff in Hk' as [_ Hk'].
    apply bool_decide_eq_true in Hk'. congruence.
  - by intros [? _]%list_elem_of_filter.
  - by intros [[_ ?] _]%list_elem_of_filter.
  - by intros [(_ & _ & ?) _]%list_elem_of_filter.
Qed.

Lemma getModAssignments_value items mods defs upgradeSpendTier :
  getModAssignments items mods defs upgradeSpendTier
  = Normal (assignments (partitionMods items mods)).
Proof.
  unfold getModAssignments.
  by destruct (searchedState_spec items mods defs upgradeSpendTier)
    as [(<- & _ & _) _].
Qed.

(** X5: the mapping that the call returns has one entry for each id among
    the items and no other entry, with no id twice; when the ids of the items
    are distinct its keys are the ids in the order of the items. *)
Theorem getModAssignments_has_one_entry_for_each_id
    items mods defs upgradeSpendTier :
  exists a,
    getModAssignments items mods defs upgradeSpendTier = Normal a
    /\ NoDup a.*1
    /\ (forall k, k ∈ a.*1 <-> k ∈ item_id <$> items)
    /\ (forall k, k ∈ a.*1 <-> is_Some (mapGet k a))
    /\ (NoDup (item_id <$> items) -> a.*1 = item_id <$> items).
Proof.
  exists (assignments (partitionMods items mods)).
  split; [apply getModAssignments_value|].
  rewrite partitionMods_keys.
  destruct (emptyAssignments_keys items) as (Hnodup & Hin & Heq).
  split; [done|]. split; [done|]. split; [|done].
  intros k. rewrite Hin, partitionMods_lookup.
  destruct (decide (k ∈ item_id <$> items)) as [Hk | Hk].
  - split; [by eexists | done].
  - split; [done | by intros [? ?]].
Qed.

(** X6: with no items the call returns the empty mapping, whatever the mods,
    and every combination of the generated permutations reaches the candidate
    point; with no mods it returns every id with the empty list. *)
Theorem getModAssignments_on_empty_input :
  (forall mods defs upgradeSpendTier,
      getModAssignments [] mods defs upgradeSpendTier = Normal []
      /\ acceptedTriples [] mods defs upgradeSpendTier
         = (c ← generatePermutationsOfFive
                  (combatMods (partitionMods [] mods)) stringifyMods;
            g ← generatePermutationsOfFive
                  (generalMods (partitionMods [] mods)) stringifyMods;
            r ← generatePermutationsOfFive
                  (raidMods (partitionMods [] mods)) stringifyMods;
            [(c, g, r)]))
  /\ (forall items defs upgradeSpendTier,
         exists a,
           getModAssignments items [] defs upgradeSpendTier = Normal a
           /\ (forall k : string,
                  mapGet k a
                  = if decide (k ∈ item_id <$> items) then Some [] else None)
           /\ forall item, item ∈ items -> mapGet (item_id item) a = Some []).
Proof.
  split.
  - intros mods defs upgradeSpendTier. split.
    + rewrite getModAssignments_value. f_equal.
      pose proof (partitionMods_keys [] mods) as Hkeys.
      by destruct (assignments (partitionMods [] mods)).
    + unfold acceptedTriples.
      destruct (searchedState_spec [] mods defs upgradeSpendTier) as [_ ->].
      by rewrite candidates_combatEvents.
  - intros items defs upgradeSpendTier.
    exists (assignments (partitionMods items [])).
    split; [apply getModAssignments_value|]. split.
    + intros k. by rewrite partitionMods_lookup.
    + intros item Hin.
      rewrite partitionMods_lookup, decide_True; [done|].
      by apply list_elem_of_fmap_2.
Qed.

End WhereTheModsGo.

Lemma partitionMods_commits_witness :
  let mods := [Example.combatMod; Example.strayMod; Example.helmetMod] in
  let b := partitionMods (ext := Example.imports) Example.items mods in
  (Example.helmetMod ∈ [Example.helmetMod] -> "helmet"%string = "helmet"%string)
  /\ (Example.helmetMod ∉ generalMods b)
  /\ (Example.helmetMod ∉ combatMods b)
  /\ (Example.helmetMod ∉ raidMods b).
Proof.
  intros mods b.
  apply (partitionMods_commits_to_one_place (ext := Example.imports)
           Example.items mods Example.helmetMod "helmet" "helmet"
           [Example.helmetMod] [Example.helmetMod]).
  - reflexivity.
  - reflexivity.
  - apply list_elem_of_here.
Defined.

(** ** The triples that the search accepts *)

Section AcceptedTriples.

Context {D2ManifestDefinitions UpgradeSpendTier : Type}.
Context {ext : Imports D2ManifestDefinitions UpgradeSpendTier}.

Implicit Types (items : list DimItem) (mods : list Mod) (st : SolverState).
Implicit Types (m : Mod) (item : DimItem).
Implicit Types (defs : D2ManifestDefinitions) (upgradeSpendTier : UpgradeSpendTier).
Implicit Types (c g r : list (option Mod)) (cs gs rs : list (list (option Mod))).

Lemma socketsTakeTag_iff st item m :
  socketsTakeTag st item
    (getModTypeTagByPlugCategoryHash (plugCategoryHash (plug m))) = true
  <-> tagAccepted st item m.
Proof.
  unfold socketsTakeTag, tagAccepted.
  destruct (getModTypeTagByPlugCategoryHash (plugCategoryHash (plug m)))
    as [tag|].
  - rewrite andb_true_iff, negb_true_iff, bool_decide_eq_false. split.
    + intros [Hne Hsome].
      destruct (itemSocketMetadata st !! item_id item) as [[metadatas|]|];
        try done.
      apply existsb_exists in Hsome as (metadata & Hin & Htag).
      exists tag, metadatas, metadata. repeat split; try done.
      * by apply list_elem_of_In.
      * by apply bool_decide_eq_true in Htag.
    + intros (tag' & metadatas & metadata & [= <-] & Hne & -> & Hin & Htag).
      split; [done|]. apply existsb_exists. exists metadata.
      split; [by apply list_elem_of_In | by apply bool_decide_eq_true].
  - split; [done|]. by intros (? & ? & ? & ? & _).
Qed.

Lemma combatFits_iff st item m :
  combatFits st item m = true <-> combatAllowedAt st item (Some m).
Proof.
  unfold combatFits, combatAllowedAt.
  rewrite andb_true_iff, socketsTakeTag_iff.
  destruct (itemEnergies st !! item_id item) as [e|].
  - rewrite andb_true_iff, Z.leb_le, itemTakesType_spec. split.
    + intros [[Hle Htype] Htag]. by exists e.
    + by intros (e' & [= <-] & Hle & Htype & Htag).
  - split; [by intros [? _] | by intros (? & ? & _)].
Qed.

Lemma generalFits_iff st c (i : nat) item m :
  generalFits st c i item m = true
  <-> generalAllowedAt st item (modAt c i) (Some m).
Proof.
  unfold generalFits, generalAllowedAt.
  destruct (itemEnergies st !! item_id item) as [e|].
  - rewrite !andb_true_iff, Z.leb_le, itemTakesType_spec,
      energyTypesCompatible_spec. split.
    + intros [[Hle Htype] Hc]. by exists e.
    + by intros (e' & [= <-] & Hle & Htype & Hc).
  - split; [done | by intros (? & ? & _)].
Qed.

Lemma raidFits_iff st c g (i : nat) item m :
  raidFits st c g i item m = true
  <-> raidAllowedAt st item (modAt c i) (modAt g i) (Some m).
Proof.
  unfold raidFits, raidAllowedAt.
  rewrite andb_true_iff, socketsTakeTag_iff.
  destruct (itemEnergies st !! item_id item) as [e|].
  - rewrite !andb_true_iff, Z.leb_le, itemTakesType_spec,
      !energyTypesCompatible_spec. split.
    + intros [[[[Hle Htype] Hg] Hc] Htag]. by exists e.
    + by intros (e' & [= <-] & Hle & Htype & Hg & Hc & Htag).
  - split; [by intros [? _] | by intros (? & ? & _)].
Qed.

(** A loop over the indices runs to its end exactly when the condition of
    the loop holds at every slot. *)
Lemma itemLoop_allowed (fits : nat -> DimItem -> Mod -> bool)
    (allowed : nat -> DimItem -> option Mod -> Prop)
    (p : list (option Mod)) items :
  (forall i item, allowed i item None) ->
  (forall i item m, fits i item m = true <-> allowed i item (Some m)) ->
  itemLoop fits p 0 items = true
  <-> forall (i : nat) item, items !! i = Some item -> allowed i item (modAt p i).
Proof.
  intros Hnone Hsome. rewrite itemLoop_true. simpl. split.
  - intros Hall i item Hitem. destruct (modAt p i) as [m|] eqn:Hm; [|done].
    apply Hsome. by apply Hall.
  - intros Hall i item m Hitem Hm. apply Hsome. rewrite <- Hm. by apply Hall.
Qed.

Lemma candidate_elem_of_combatEvents st items cs gs rs c g r :
  Candidate c g r ∈ combatEvents st items gs rs cs
  <-> c ∈ cs /\ g ∈ gs /\ r ∈ rs
      /\ itemLoop (fun _ => combatFits st) c 0 items = true
      /\ itemLoop (generalFits st c) g 0 items = true
      /\ itemLoop (raidFits st c g) r 0 items = true.
Proof.
  rewrite elem_of_combatEvents. split.
  - intros (c' & Hc & [? | [Hokc He]]); [done|].
    apply elem_of_generalEvents in He as (g' & Hg & [? | [Hokg He]]); [done|].
    apply elem_of_raidEvents in He as (r' & Hr & [? | [[= -> -> ->] Hokr]]);
      done.
  - intros (Hc & Hg & Hr & Hokc & Hokg & Hokr).
    exists c. split; [done|]. right. split; [done|].
    apply elem_of_generalEvents. exists g. split; [done|]. right.
    split; [done|].
    apply elem_of_raidEvents. exists r. split; [done|]. by right.
Qed.

(** X7: the search is sound and complete for the conditions of its three
    loops: a triple reaches the candidate point exactly when its permutations
    are among the generated ones and, at every slot, the combat entry fits
    the seeded use and has an accepted tag, the general entry fits on top of
    the combat entry, and the raid entry fits on top of both and has an
    accepted tag; empty entries ask for nothing, and a tag that is missing or
    the empty string is not accepted. *)
Theorem acceptedTriples_iff_allowed_at_every_slot
    items mods defs upgradeSpendTier c g r :
  let st := seededState items mods defs upgradeSpendTier in
  (c, g, r) ∈ acceptedTriples items mods defs upgradeSpendTier
  <-> c ∈ generatePermutationsOfFive (combatMods (buckets st)) stringifyMods
      /\ g ∈ generatePermutationsOfFive (generalMods (buckets st)) stringifyMods
      /\ r ∈ generatePermutationsOfFive (raidMods (buckets st)) stringifyMods
      /\ forall (i : nat) item,
           items !! i = Some item ->
           combatAllowedAt st item (modAt c i)
           /\ generalAllowedAt st item (modAt c i) (modAt g i)
           /\ raidAllowedAt st item (modAt c i) (modAt g i) (modAt r i).
Proof.
  intros st. unfold acceptedTriples.
  destruct (searchedState_spec items mods defs upgradeSpendTier) as [_ ->].
  fold st.
  rewrite elem_of_candidates, candidate_elem_of_combatEvents.
  rewrite (itemLoop_allowed (fun _ => combatFits st)
             (fun _ item o => combatAllowedAt st item o));
    [| done | intros; apply combatFits_iff].
  rewrite (itemLoop_allowed (generalFits st c)
             (fun i item o => generalAllowedAt st item (modAt c i) o));
    [| done | intros; apply generalFits_iff].
  rewrite (itemLoop_allowed (raidFits st c g)
             (fun i item o =>
                raidAllowedAt st item (modAt c i) (modAt g i) o));
    [| done | intros; apply raidFits_iff].
  split.
  - intros (Hc & Hg & Hr & Hokc & Hokg & Hokr). repeat split; auto.
  - intros (Hc & Hg & Hr & Hall).
    repeat split; try done; intros i item Hitem; by apply Hall.
Qed.

(** *** Entries past the last item *)

Lemma itemLoop_agree (fits fits' : nat -> DimItem -> Mod -> bool)
    (p p' : list (option Mod)) items :
  agreeBelow (length items) p p' ->
  (forall (i : nat) item m,
      items !! i = Some item -> fits i item m = fits' i item m) ->
  itemLoop fits p 0 items = itemLoop fits' p' 0 items.
Proof.
  intros Hagree Hfits. apply eq_true_iff_eq. rewrite !itemLoop_true. simpl.
  split; intros Hall i item m Hitem Hm.
  - rewrite <- Hfits by done. apply Hall; [done|].
    rewrite Hagree; [done | by eapply lookup_lt_Some].
  - rewrite Hfits by done. apply Hall; [done|].
    rewrite <- Hagree; [done | by eapply lookup_lt_Some].
Qed.

(** X8: the loops read the entries of a permutation at the indices of the
    items only: permutations that agree below the number of items, whatever
    their lengths and their entries from there on, are abandoned or accepted
    alike by each of the three loops, under any state. *)
Theorem loops_read_entries_below_items_length st items c c' g g' r r' :
  agreeBelow (length items) c c' ->
  agreeBelow (length items) g g' ->
  agreeBelow (length items) r r' ->
  itemLoop (fun _ => combatFits st) c 0 items
  = itemLoop (fun _ => combatFits st) c' 0 items
  /\ itemLoop (generalFits st c) g 0 items
     = itemLoop (generalFits st c') g' 0 items
  /\ itemLoop (raidFits st c g) r 0 items
     = itemLoop (raidFits st c' g') r' 0 items.
Proof.
  intros Hc Hg Hr. split; [|split].
  - by apply itemLoop_agree.
  - apply itemLoop_agree; [done|]. intros i item m Hitem.
    unfold generalFits. rewrite (Hc i); [done | by eapply lookup_lt_Some].
  - apply itemLoop_agree; [done|]. intros i item m Hitem.
    unfold raidFits.
    rewrite (Hc i), (Hg i); [done | by eapply lookup_lt_Some ..].
Qed.

End AcceptedTriples.

Lemma loops_read_entries_witness :
  let st := seededState (ext := Example.imports)
              [Example.helmet] [Example.combatMod] tt tt in
  let c := [Some Example.combatMod; None; None; None; None] in
  let c' := [Some Example.combatMod; Some Example.combatMod] in
  itemLoop (fun _ => combatFits (ext := Example.imports) st) c 0 [Example.helmet]
  = itemLoop (fun _ => combatFits (ext := Example.imports) st) c' 0
      [Example.helmet].
Proof.
  intros st c c'.
  assert (Hagree : agreeBelow (length [Example.helmet]) c c').
  { intros [|i] Hi; [reflexivity | simpl in Hi; lia]. }
  assert (Hnone : agreeBelow (length [Example.helmet])
                    Example.none5 Example.none5) by (intros i _; reflexivity).
  exact (proj1 (loops_read_entries_below_items_length (ext := Example.imports)
                  st [Example.helmet] c c' Example.none5 Example.none5
                  Example.none5 Example.none5 Hagree Hnone Hnone)).
Defined.

(** ** The objects keyed by item id, for items with distinct ids *)

Lemma lastWithId_NoDup (items : list DimItem) (item : DimItem) :
  NoDup (item_id <$> items) -> item ∈ items ->
  lastWithId (item_id item) items = Some item.
Proof.
  unfold lastWithId.
  induction items as [|x items IH] using rev_ind; intros Hnodup Hin.
  - by apply elem_of_nil in Hin.
  - rewrite fmap_app in Hnodup. apply NoDup_app in Hnodup as (Hitems & Hx & _).
    rewrite filter_app, filter_cons, filter_nil.
    destruct (decide (item_id x = item_id item)) as [Heq | Hne].
    + rewrite last_snoc. f_equal.
      apply elem_of_app in Hin as [Hin | Hin%list_elem_of_singleton]; [|done].
      exfalso. apply (Hx (item_id item)).
      * by apply list_elem_of_fmap_2.
      * rewrite <- Heq. simpl. by left.
    + rewrite app_nil_r. apply IH; [done|].
      apply elem_of_app in Hin as [Hin | Hin%list_elem_of_singleton]; [done|].
      by subst.
Qed.

Lemma lastWithId_iff (k : string) (items : list DimItem) (item : DimItem) :
  lastWithId k items = Some item
  <-> exists i : nat,
        items !! i = Some item /\ item_id item = k
        /\ forall (j : nat) other,
             (i < j)%nat -> items !! j = Some other -> item_id other <> k.
Proof.
  unfold lastWithId. revert item.
  induction items as [|x items IH] using rev_ind; intros item.
  - split; [done|]. by intros (i & Hi & _).
  - rewrite filter_app, filter_cons, filter_nil.
    destruct (decide (item_id x = k)) as [Hx | Hx].
    + rewrite last_snoc. split.
      * intros [= <-]. exists (length items). split; [|split; [done|]].
        -- by rewrite lookup_app_r, Nat.sub_diag.
        -- intros j other Hj Hother. apply lookup_lt_Some in Hother.
           rewrite length_app in Hother. simpl in Hother. lia.
      * intros (i & Hi & Hk & Hlast). f_equal.
        destruct (decide (i < length items)%nat) as [Hlt | Hge].
        -- exfalso. apply (Hlast (length items) x); [done | | done].
           by rewrite lookup_app_r, Nat.sub_diag.
        -- pose proof (lookup_lt_Some _ _ _ Hi) as Hbound.
           rewrite length_app in Hbound. simpl in Hbound.
           assert (i = length items) as -> by lia.
           rewrite lookup_app_r, Nat.sub_diag in Hi by lia.
           by injection Hi.
    + rewrite app_nil_r, IH. split.
      * intros (i & Hi & Hk & Hlast). exists i.
        split; [by apply lookup_app_l_Some|]. split; [done|].
        intros j other Hj Hother.
        destruct (decide (j < length items)%nat) as [Hlt | Hge].
        -- rewrite lookup_app_l in Hother by done. by apply (Hlast j).
        -- pose proof (lookup_lt_Some _ _ _ Hother) as Hbound.
           rewrite length_app in Hbound. simpl in Hbound.
           assert (j = length items) as -> by lia.
           rewrite lookup_app_r, Nat.sub_diag in Hother by lia.
           injection Hother as <-. done.
      * intros (i & Hi & Hk & Hlast).
        destruct (decide (i < length items)%nat) as [Hlt | Hge].
        -- exists i. rewrite lookup_app_l in Hi by done.
           split; [done|]. split; [done|].
           intros j other Hj Hother. apply (Hlast j); [done|].
           by apply lookup_app_l_Some.
        -- exfalso. pose proof (lookup_lt_Some _ _ _ Hi) as Hbound.
           rewrite length_app in Hbound. simpl in Hbound.
           assert (i = length items) as -> by lia.
           rewrite lookup_app_r, Nat.sub_diag in Hi by lia.
           injection Hi as <-. done.
Qed.

Section DistinctIds.

Context {D2ManifestDefinitions UpgradeSpendTier : Type}.
Context {ext : Imports D2ManifestDefinitions UpgradeSpendTier}.

Implicit Types (items : list DimItem) (mods : list Mod) (m : Mod).
Implicit Types (defs : D2ManifestDefinitions) (upgradeSpendTier : UpgradeSpendTier).

Lemma seededState_energy_lookup items mods defs upgradeSpendTier (k : string) :
  itemEnergies (seededState items mods defs upgradeSpendTier) !! k
  = (fun item =>
       {| used := sumBy (mapGet (item_id item)
                           (assignments (partitionMods items mods)))
                    energyCostOf;
          capacity := upgradeSpendTierToMaxEnergy defs upgradeSpendTier item;
          type := match item_energy item with
                  | None => Any
                  | Some energy =>
                      if canSwapEnergyFromUpgradeSpendTier defs
                           upgradeSpendTier item
                      then Any else energyType energy
                  end |}) <$> lastWithId k items.
Proof.
  unfold seededState, buildItemEnergies, mapValues. simpl.
  by rewrite lookup_fmap, keyBy_lookup.
Qed.

(** X9: both objects keyed by item id hold, under an id, what the last item
    with that id gives; so when the ids of the items are distinct, the state
    and the socket metadata that the loops read at a slot are those of the
    item of the slot: its own capacity, its own type unless it has no energy
    or may change it, the costs of the mods committed to it, and its own
    specialty sockets. *)
Theorem slot_objects_of_items_with_distinct_ids
    items mods defs upgradeSpendTier :
  let st := seededState items mods defs upgradeSpendTier in
  (forall k : string,
      itemSocketMetadata st !! k
      = getSpecialtySocketMetadatas <$> lastWithId k items)
  /\ (forall k : string,
         itemEnergies st !! k
         = (fun item =>
              {| used := sumBy (Some (filter (fun m => committedTo items k m
                                                       = true) mods))
                           energyCostOf;
                 capacity := upgradeSpendTierToMaxEnergy defs upgradeSpendTier
                               item;
                 type := match item_energy item with
                         | None => Any
                         | Some energy =>
                             if canSwapEnergyFromUpgradeSpendTier defs
                                  upgradeSpendTier item
                             then Any else energyType energy
                         end |}) <$> lastWithId k items)
  /\ (forall (k : string) item,
         lastWithId k items = Some item
         <-> exists i : nat,
               items !! i = Some item /\ item_id item = k
               /\ forall (j : nat) other,
                    (i < j)%nat -> items !! j = Some other ->
                    item_id other <> k)
  /\ (NoDup (item_id <$> items) ->
      forall (i : nat) item,
        items !! i = Some item ->
        itemEnergies st !! item_id item
        = Some {| used := sumBy (Some (filter (fun m => committedTo items
                                                          (item_id item) m = true)
                                         mods)) energyCostOf;
                  capacity := upgradeSpendTierToMaxEnergy defs upgradeSpendTier
                                item;
                  type := match item_energy item with
                          | None => Any
                          | Some energy =>
                              if canSwapEnergyFromUpgradeSpendTier defs
                                   upgradeSpendTier item
                              then Any else energyType energy
                          end |}
        /\ itemSocketMetadata st !! item_id item
           = Some (getSpecialtySocketMetadatas item)).
Proof.
  intros st.
  assert (Hsockets : forall k : string,
             itemSocketMetadata st !! k
             = getSpecialtySocketMetadatas <$> lastWithId k items).
  { intros k. unfold st, seededState, buildItemSocketMetadata, mapValues. simpl.
    by rewrite lookup_fmap, keyBy_lookup. }
  split; [done|]. split; [|split; [intros k item; apply lastWithId_iff|]].
  { intros k. unfold st. rewrite seededState_energy_lookup.
    destruct (lastWithId k items) as [item|] eqn:Hlast; [|done]. simpl.
    apply lastWithId_Some in Hlast as [Hin <-].
    rewrite partitionMods_lookup, decide_True; [done|].
    by apply list_elem_of_fmap_2. }
  intros Hnodup i item Hitem.
  assert (Hin : item ∈ items) by (by eapply list_elem_of_lookup_2).
  unfold st. rewrite seededState_energy_lookup. fold st. rewrite Hsockets.
  rewrite (lastWithId_NoDup items item Hnodup Hin). simpl.
  rewrite partitionMods_lookup, decide_True by (by apply list_elem_of_fmap_2).
  done.
Qed.

(** X10: for items with distinct ids, a mod that [doEnergiesMatch] accepts on
    an item passes the type test of the search at the slot of the item; and
    at the slot of an item without energy, on which [doEnergiesMatch] is
    falsy for every mod, the type test of the search passes for every type,
    the state of such an item having the type [Any]. *)
Theorem doEnergiesMatch_implies_the_type_test_of_the_search
    items mods defs upgradeSpendTier (item : DimItem) :
  NoDup (item_id <$> items) ->
  item ∈ items ->
  exists e,
    itemEnergies (seededState items mods defs upgradeSpendTier) !! item_id item
    = Some e
    /\ (forall m,
           truthy (doEnergiesMatch defs m item upgradeSpendTier) = true ->
           itemTakesType e (energyTypeOf m) = true)
    /\ (item_energy item = None ->
        forall m t,
          truthy (doEnergiesMatch defs m item upgradeSpendTier) = false
          /\ itemTakesType e t = true).
Proof.
  intros Hnodup Hin.
  rewrite seededState_energy_lookup, (lastWithId_NoDup items item Hnodup Hin).
  simpl. eexists. split; [done|]. split.
  - intros m Hmatch. apply itemTakesType_spec. simpl.
    unfold doEnergiesMatch in Hmatch. unfold energyTypeOf.
    destruct (item_energy item) as [energy|]; simpl in *; [|done].
    destruct (energyCost (plug m)) as [cost|]; simpl in *; [|by left].
    destruct (canSwapEnergyFromUpgradeSpendTier defs upgradeSpendTier item);
      simpl in *; [by right; right|].
    rewrite orb_false_r in Hmatch.
    apply orb_true_iff in Hmatch as [H | H]; apply bool_decide_eq_true in H;
      [by left | by right; left].
  - intros Hnone m t. split.
    + unfold doEnergiesMatch. by rewrite Hnone.
    + apply itemTakesType_spec. simpl. rewrite Hnone. by right; right.
Qed.

End DistinctIds.

Lemma slot_objects_witness :
  let st := seededState (ext := Example.imports) Example.items
              [Example.helmetMod] tt tt in
  itemEnergies st !! "helmet"%string
  = Some {| used := sumBy (Some (filter (fun m =>
                                           committedTo (ext := Example.imports)
                                             Example.items "helmet" m = true)
                                   [Example.helmetMod])) energyCostOf;
            capacity := 10; type := Arc |}
  /\ itemSocketMetadata st !! "helmet"%string
     = Some (Some [ {| compatibleModTags := ["combat"%string; "raid"%string] |} ]).
Proof.
  intros st.
  apply (proj2 (proj2 (proj2 (slot_objects_of_items_with_distinct_ids
                                (ext := Example.imports)
                                Example.items [Example.helmetMod] tt tt)))
           ltac:(refine (bool_decide_unpack _ _); vm_compute; exact I)
           0%nat Example.helmet eq_refl).
Defined.

Lemma doEnergiesMatch_type_test_witness :
  exists e,
    itemEnergies (seededState (ext := Example.imports) Example.items [] tt tt)
      !! "helmet"%string = Some e
    /\ (forall m,
           truthy (doEnergiesMatch (ext := Example.imports) tt m
                     Example.helmet tt) = true ->
           itemTakesType e (energyTypeOf m) = true)
    /\ (item_energy Example.helmet = None ->
        forall m t,
          truthy (doEnergiesMatch (ext := Example.imports) tt m
                    Example.helmet tt) = false
          /\ itemTakesType e t = true).
Proof.
  apply (doEnergiesMatch_implies_the_type_test_of_the_search
           (ext := Example.imports) Example.items [] tt tt Example.helmet).
  - refine (bool_decide_unpack _ _). vm_compute. exact I.
  - apply list_elem_of_here.
Defined.

(** ** How many permutations the loops take up *)


Lemma countEvents_le_length (kind : SearchEvent -> bool) (l : list SearchEvent) :
  (countEvents kind l <= length l)%nat.
Proof. induction l as [|e l IH]; simpl; [done|]. destruct (kind e); lia. Qed.

Section Counts.

Context {D2ManifestDefinitions UpgradeSpendTier : Type}.
Context {ext : Imports D2ManifestDefinitions UpgradeSpendTier}.

Implicit Types (items : list DimItem) (mods : list Mod) (st : SolverState).
Implicit Types (defs : D2ManifestDefinitions) (upgradeSpendTier : UpgradeSpendTier).
Implicit Types (c g r : list (option Mod)) (cs gs rs : list (list (option Mod))).








End Counts.

(** ** The key of [stringifyMods] and the checks of the loops *)

Lemma sameEntry_modAt (p q : list (option Mod)) (i : nat) :
  Forall2 sameEntry p q -> sameEntry (modAt p i) (modAt q i).
Proof.
  intros Hsame. unfold modAt.
  destruct (p !! i) as [a|] eqn:Hp.
  - destruct (Forall2_lookup_l _ _ _ _ _ Hsame Hp) as (b & -> & Hab). done.
  - assert (q !! i = None) as ->; [|done].
    apply lookup_ge_None. rewrite <- (Forall2_length _ _ _ Hsame).
    by apply lookup_ge_None.
Qed.

Lemma modKey_fields (m n : Mod) :
  modKey m = modKey n ->
  energyCostOf m = energyCostOf n /\ energyTypeOf m = energyTypeOf n
  /\ plugCategoryHash (plug m) = plugCategoryHash (plug n).
Proof.
  unfold modKey, energyCostOf, energyTypeOf. intros [= Ht Hc Hh].
  destruct (energyCost (plug m)) as [c1|], (energyCost (plug n)) as [c2|];
    simpl in *; try done.
  by injection Ht as ->; injection Hc as ->.
Qed.

Lemma sameEntry_fields (a b : option Mod) :
  sameEntry a b ->
  energyCostAt a = energyCostAt b /\ energyTypeAt a = energyTypeAt b.
Proof.
  destruct a as [m|], b as [n|]; simpl; try done.
  intros Hk. by destruct (modKey_fields m n Hk) as (? & ? & _).
Qed.

Lemma itemLoop_sameEntry (fits fits' : nat -> DimItem -> Mod -> bool)
    (p q : list (option Mod)) (i : nat) (items : list DimItem) :
  (forall j : nat, sameEntry (modAt p j) (modAt q j)) ->
  (forall (j : nat) item m n,
      modKey m = modKey n -> fits j item m = fits' j item n) ->
  itemLoop fits p i items = itemLoop fits' q i items.
Proof.
  intros Hsame Hfits. revert i.
  induction items as [|item items IH]; intros i; simpl; [done|].
  pose proof (Hsame i) as Hi.
  destruct (modAt p i) as [m|], (modAt q i) as [n|]; simpl in Hi; try done.
  by rewrite (Hfits i item m n Hi), IH.
Qed.

Section KeyAndChecks.

Context {D2ManifestDefinitions UpgradeSpendTier : Type}.
Context {ext : Imports D2ManifestDefinitions UpgradeSpendTier}.

Implicit Types (items : list DimItem) (st : SolverState) (m n : Mod).
Implicit Types (c g r : list (option Mod)).

(** X12: the key of [stringifyMods] tells apart all that the loops read of a
    permutation: permutations with the same key are abandoned or accepted
    alike by each of the three loops, under any state and over any items, so
    keeping one arrangement per key loses no outcome of the search. *)
Theorem permutations_with_the_same_key_are_checked_alike
    st items c c' g g' r r' :
  stringifyMods c = stringifyMods c' ->
  stringifyMods g = stringifyMods g' ->
  stringifyMods r = stringifyMods r' ->
  itemLoop (fun _ => combatFits st) c 0 items
  = itemLoop (fun _ => combatFits st) c' 0 items
  /\ itemLoop (generalFits st c) g 0 items
     = itemLoop (generalFits st c') g' 0 items
  /\ itemLoop (raidFits st c g) r 0 items
     = itemLoop (raidFits st c' g') r' 0 items.
Proof.
  intros Hc%stringifyMods_iff Hg%stringifyMods_iff Hr%stringifyMods_iff.
  split; [|split]; apply itemLoop_sameEntry;
    try (intros j; by apply sameEntry_modAt).
  - intros j item m n Hk. destruct (modKey_fields m n Hk) as (Hcost & Htype & Hh).
    unfold combatFits. by rewrite Hcost, Htype, Hh.
  - intros j item m n Hk. destruct (modKey_fields m n Hk) as (Hcost & Htype & Hh).
    destruct (sameEntry_fields _ _ (sameEntry_modAt c c' j Hc)) as [Hcc Hct].
    unfold generalFits. by rewrite Hcost, Htype, Hcc, Hct.
  - intros j item m n Hk. destruct (modKey_fields m n Hk) as (Hcost & Htype & Hh).
    destruct (sameEntry_fields _ _ (sameEntry_modAt c c' j Hc)) as [Hcc Hct].
    destruct (sameEntry_fields _ _ (sameEntry_modAt g g' j Hg)) as [Hgc Hgt].
    unfold raidFits. by rewrite Hcost, Htype, Hh, Hcc, Hct, Hgc, Hgt.
Qed.

End KeyAndChecks.

Lemma same_key_witness :
  let st := seededState (ext := Example.imports) Example.items [] tt tt in
  let c := [Some Example.emberA; None; None; None; None] in
  let c' := [Some Example.emberB; None; None; None; None] in
  itemLoop (fun _ => combatFits (ext := Example.imports) st) c 0 Example.items
  = itemLoop (fun _ => combatFits (ext := Example.imports) st) c' 0
      Example.items.
Proof.
  intros st c c'.
  exact (proj1 (permutations_with_the_same_key_are_checked_alike
                  (ext := Example.imports) st Example.items c c'
                  Example.none5 Example.none5 Example.none5 Example.none5
                  eq_refl eq_refl eq_refl)).
Defined.
